(** * Gopher-Dash: the game loop of [main.go], embedded and verified

    The Go program is a Bubble Tea application.  Its [Update] method is a
    reducer from (model, message) to (model, command) that also reads the
    clock, draws from a random source and writes the high-score file.
    Those three effects are threaded explicitly through a [World] value.

    Conventions of the embedding:
    - a Go [int] (64 bit) is a [Z], every arithmetic operation wraps with
      [wrap]; [/] is Go's truncated division ([Z.quot]);
    - a [time.Time] and a [time.Duration] are a number of nanoseconds in [Z];
    - a Go [string] or [[]byte] is a [string] or a [list ascii] of bytes;
    - a [tea.Cmd] is the description of what it will deliver ([Cmd]). *)

From Stdlib Require Import ZArith List Bool String Ascii QArith Lia Znumtheory.
From Stdlib Require Import Sorted.
Import ListNotations.
Open Scope Z_scope.

(* ------------------------------------------------------------------------ *)
(** ** Go's [int] *)
(* ------------------------------------------------------------------------ *)

Module GoInt.

Definition min_int : Z := - 2 ^ 63.
Definition max_int : Z := 2 ^ 63 - 1.

(** Two's complement reduction of a mathematical integer to 64 bits. *)
Definition wrap (z : Z) : Z := (z + 2 ^ 63) mod 2 ^ 64 - 2 ^ 63.

Definition in_range (z : Z) : Prop := min_int <= z <= max_int.

Definition add (a b : Z) : Z := wrap (a + b).
Definition sub (a b : Z) : Z := wrap (a - b).
(** [a / b] for [b <> 0]: truncation toward zero. *)
Definition div (a b : Z) : Z := wrap (Z.quot a b).

End GoInt.

(* ------------------------------------------------------------------------ *)
(** ** CONSTANTS *)
(* ------------------------------------------------------------------------ *)

Definition Millisecond : Z := 1000000.
Definition Second : Z := 1000000000.

Definition startFrame : Z := 45 * Millisecond.
Definition cooldownSeconds : Z := 2.
Definition gameOverTick : Z := 250 * Millisecond.

Definition gravity : Z := 1.
Definition jumpVel : Z := -4.

Definition minGapCells : Z := 4.
Definition highScoreFile : string := ".gopherdash_highscore".

(** The float64 nearest to the constant [0.998] is [accelMant * 2^-53]. *)
Definition accelMant : Z := 8989184856231510.

(** The float64 nearest to [0.12] is [8646911284551352 * 2^-56]. *)
Definition spawnChance : Q := 8646911284551352 # (2 ^ 56).
Definition rockChance : Q := 1 # 2.

(* ------------------------------------------------------------------------ *)
(** ** The world outside the program: clock, random source, one directory *)
(* ------------------------------------------------------------------------ *)

Record World := mkWorld {
  clock       : nat -> Z;        (* the k-th reading of [time.Now()], in ns *)
  clock_reads : nat;             (* readings taken so far *)
  rand        : nat -> Z;        (* the k-th raw draw of [rng] *)
  rand_draws  : nat;             (* draws taken so far *)
  cwd         : option string;   (* what [os.Getwd()] answers *)
  files       : string -> option (list ascii);  (* readable files *)
  writable    : string -> bool   (* does a write to this path succeed *)
}.

(** A computation that may touch the world. *)
Definition IO (A : Type) : Type := World -> A * World.

Definition ret {A} (a : A) : IO A := fun w => (a, w).
Definition bind {A B} (c : IO A) (k : A -> IO B) : IO B :=
  fun w => let (a, w') := c w in k a w'.

Declare Scope io_scope.
Delimit Scope io_scope with io.
Notation "x <- c ;; k" := (bind c (fun x => k))
  (at level 61, c at next level, right associativity) : io_scope.
Notation "c ;;; k" := (bind c (fun _ => k))
  (at level 61, right associativity) : io_scope.

(** [time.Now()] *)
Definition time_Now : IO Z := fun w =>
  (clock w (clock_reads w),
   mkWorld (clock w) (S (clock_reads w)) (rand w) (rand_draws w)
           (cwd w) (files w) (writable w)).

Definition next_raw : IO Z := fun w =>
  (rand w (rand_draws w),
   mkWorld (clock w) (clock_reads w) (rand w) (S (rand_draws w))
           (cwd w) (files w) (writable w)).

(** [rng.Float64()]: a multiple of [2^-53] in [[0, 1)]. *)
Definition rng_Float64 : IO Q := fun w =>
  let (r, w') := next_raw w in ((r mod 2 ^ 53) # (2 ^ 53), w').

(** [rng.Intn(n)] for [n > 0]: an integer in [[0, n)]. *)
Definition rng_Intn (n : Z) : IO Z := fun w =>
  let (r, w') := next_raw w in (r mod n, w').

Definition Qltb (a b : Q) : bool := negb (Qle_bool b a).

(** [os.ReadFile]: [None] stands for any error. *)
Definition os_ReadFile (path : string) : IO (option (list ascii)) := fun w =>
  (files w path, w).

(** [os.WriteFile]: replaces the whole content; the result tells whether it
    succeeded.  A failed write is modelled as leaving the file alone. *)
Definition os_WriteFile (path : string) (data : list ascii) : IO bool := fun w =>
  if writable w path then
    (true,
     mkWorld (clock w) (clock_reads w) (rand w) (rand_draws w) (cwd w)
       (fun p => if String.eqb p path then Some data else files w p)
       (writable w))
  else (false, w).

(** [os.Getwd()] *)
Definition os_Getwd : IO (option string) := fun w => (cwd w, w).

(* ------------------------------------------------------------------------ *)
(** ** The library functions the high-score code calls *)
(* ------------------------------------------------------------------------ *)

Module Strconv.

Definition digit_char (d : Z) : ascii := ascii_of_N (Z.to_N (48 + d)).

(** Decimal digits of [u >= 0], most significant first, pushed in front of
    [acc].  Twenty rounds cover every 64-bit magnitude. *)
Fixpoint utoa (fuel : nat) (u : Z) (acc : list ascii) : list ascii :=
  match fuel with
  | O => acc
  | S f =>
      let acc' := digit_char (u mod 10) :: acc in
      if u <? 10 then acc' else utoa f (u / 10) acc'
  end.

(** [strconv.Itoa] *)
Definition Itoa (i : Z) : list ascii :=
  if i <? 0 then "-"%char :: utoa 20 (- i) [] else utoa 20 i [].

Definition digit_val (c : ascii) : option Z :=
  let n := Z.of_N (N_of_ascii c) in
  if (48 <=? n) && (n <=? 57) then Some (n - 48) else None.

Fixpoint parse_digits (s : list ascii) (n : Z) : option Z :=
  match s with
  | [] => Some n
  | c :: r =>
      match digit_val c with
      | Some d => parse_digits r (n * 10 + d)
      | None => None
      end
  end.

Definition in_rangeb (z : Z) : bool :=
  (GoInt.min_int <=? z) && (z <=? GoInt.max_int).

(** [strconv.Atoi]: an optional sign, then one or more decimal digits, and
    a value that fits an [int]; [None] stands for any error. *)
Definition Atoi (s : list ascii) : option Z :=
  let '(neg, body) :=
    match s with
    | c :: r =>
        if Ascii.eqb c "-" then (true, r)
        else if Ascii.eqb c "+" then (false, r)
        else (false, s)
    | [] => (false, s)
    end in
  match body with
  | [] => None
  | _ :: _ =>
      match parse_digits body 0 with
      | Some n =>
          let v := if neg then - n else n in
          if in_rangeb v then Some v else None
      | None => None
      end
  end.

End Strconv.

Module Strings.

Definition bytes (l : list N) : list ascii := map ascii_of_N l.

(** UTF-8 encodings of the code points for which [unicode.IsSpace] holds:
    tab, LF, VT, FF, CR, space, U+0085, U+00A0, U+1680, U+2000..U+200A,
    U+2028, U+2029, U+202F, U+205F, U+3000. *)
Definition space_encodings : list (list ascii) :=
  map bytes
    [ [9]; [10]; [11]; [12]; [13]; [32];
      [194; 133]; [194; 160];
      [225; 154; 128];
      [226; 128; 128]; [226; 128; 129]; [226; 128; 130]; [226; 128; 131];
      [226; 128; 132]; [226; 128; 133]; [226; 128; 134]; [226; 128; 135];
      [226; 128; 136]; [226; 128; 137]; [226; 128; 138];
      [226; 128; 168]; [226; 128; 169]; [226; 128; 175];
      [226; 129; 159];
      [227; 128; 128] ]%N.

Fixpoint strip_prefix (p s : list ascii) : option (list ascii) :=
  match p, s with
  | [], _ => Some s
  | a :: p', b :: s' => if Ascii.eqb a b then strip_prefix p' s' else None
  | _ :: _, [] => None
  end.

Fixpoint strip_any (ps : list (list ascii)) (s : list ascii)
  : option (list ascii) :=
  match ps with
  | [] => None
  | p :: ps' =>
      match strip_prefix p s with
      | Some r => Some r
      | None => strip_any ps' s
      end
  end.

(** Remove leading members of [ps] for at most [n] rounds. *)
Fixpoint trim_left_n (ps : list (list ascii)) (n : nat) (s : list ascii)
  : list ascii :=
  match n with
  | O => s
  | S k =>
      match strip_any ps s with
      | Some r => trim_left_n ps k r
      | None => s
      end
  end.

Definition TrimLeftSpace (s : list ascii) : list ascii :=
  trim_left_n space_encodings (List.length s) s.

Definition TrimRightSpace (s : list ascii) : list ascii :=
  rev (trim_left_n (map (@rev ascii) space_encodings) (List.length s) (rev s)).

(** [strings.TrimSpace] *)
Definition TrimSpace (s : list ascii) : list ascii :=
  TrimRightSpace (TrimLeftSpace s).

(** A string made of members of [ps] one after the other. *)
Inductive Run (ps : list (list ascii)) : list ascii -> Prop :=
| Run_nil : Run ps []
| Run_app e s : In e ps -> Run ps s -> Run ps (e ++ s)%list.

(** A run of white space. *)
Definition Spaces : list ascii -> Prop := Run space_encodings.

End Strings.

(** [filepath.Join] of a clean directory name and a file name. *)
Definition filepath_Join (dir name : string) : string :=
  if String.eqb dir "/" then (dir ++ name)%string
  else (dir ++ "/" ++ name)%string.

(* ------------------------------------------------------------------------ *)
(** ** HIGH-SCORE PERSISTENCE *)
(* ------------------------------------------------------------------------ *)

Open Scope io_scope.

Definition scoreFilePath : IO string :=
  wd <- os_Getwd ;;
  match wd with
  | None => ret highScoreFile
  | Some d => ret (filepath_Join d highScoreFile)
  end.

Definition loadHighScore : IO Z :=
  path <- scoreFilePath ;;
  data <- os_ReadFile path ;;
  match data with
  | None => ret 0
  | Some bs =>
      match Strconv.Atoi (Strings.TrimSpace bs) with
      | None => ret 0
      | Some s => if s <? 0 then ret 0 else ret s
      end
  end.

Definition saveHighScore (score : Z) : IO unit :=
  path <- scoreFilePath ;;
  _ <- os_WriteFile path (Strconv.Itoa score) ;;
  ret tt.

(* ------------------------------------------------------------------------ *)
(** ** float64 arithmetic of the speed ramp, on integers *)
(* ------------------------------------------------------------------------ *)

Module Float64.

(** [p / 2^s] rounded to the nearest integer, ties to even ([0 <= p]). *)
Definition rne (p s : Z) : Z :=
  if s <=? 0 then p
  else
    let q := p / 2 ^ s in
    let r := p mod 2 ^ s in
    let half := 2 ^ (s - 1) in
    if r <? half then q
    else if half <? r then q + 1
    else if Z.even q then q else q + 1.

(** The nearest number with at most 53 significant bits ([0 <= p]). *)
Definition round53 (p : Z) : Z :=
  if p <? 2 ^ 53 then p
  else let s := Z.log2 p - 52 in rne p s * 2 ^ s.

(** [float64(d)] for an int64 [d]; the result is an integer. *)
Definition of_int (d : Z) : Z :=
  if d <? 0 then - round53 (- d) else round53 d.

(** [x * accelFactor] for an integer-valued float [x]; the result is
    counted in units of [2^-53]. *)
Definition mul_accel (x : Z) : Z :=
  if x <? 0 then - round53 (- x * accelMant) else round53 (x * accelMant).

(** Conversion of [v * 2^-53] to an integer: truncation toward zero. *)
Definition to_int (v : Z) : Z := Z.quot v (2 ^ 53).

End Float64.

(** [time.Duration(float64(d) * accelFactor)] *)
Definition accelerate (d : Z) : Z :=
  Float64.to_int (Float64.mul_accel (Float64.of_int d)).

(* ------------------------------------------------------------------------ *)
(** ** TYPES *)
(* ------------------------------------------------------------------------ *)

(** tick message tagged with the run generation, and the other messages
    Bubble Tea delivers; a [KeyMsg] is given by its [String()]. *)
Inductive Msg : Type :=
| WindowSizeMsg (Width Height : Z)
| KeyMsg (key : string)
| tickMsg (gen : Z)
| otherMsg.

(** What [Update] hands back to the runtime: [tea.Quit], or the timer made
    by [tickAfter]; [None] is the nil command. *)
Inductive Cmd : Type :=
| Quit
| Tick (d : Z) (gen : Z).

Record obstacle := mkObstacle {
  x   : Z;       (* horizontal logical cell *)
  typ : string   (* "hole" or "rock" *)
}.

Record model := mkModel {
  w : Z; h : Z;                 (* terminal size *)
  gameRows : Z; gameCols : Z;   (* derived grid size *)
  frameDur : Z;                 (* timing *)
  tickGen : Z;
  dist : Z;                     (* gameplay *)
  playerY : Z;
  velY : Z;
  obstacles : list obstacle;
  highScore : Z;                (* meta *)
  gameOver : bool;
  restartAt : Z
}.

Definition tickAfter (d gen : Z) : Cmd := Tick d gen.

(** The zero value of every field but the two [initialModel] sets. *)
Definition initialModel : IO model :=
  hs <- loadHighScore ;;
  ret (mkModel 0 0 0 0 startFrame 0 0 0 0 [] hs false 0).

(** The row the player stands on: [m.gameRows - 2]. *)
Definition restY (m : model) : Z := GoInt.sub (gameRows m) 2.

(* recompute grid on resize *)
Definition recalcSizes (m : model) : model :=
  let topRows := 1 in
  let bottomRows := 1 in
  let borders := 2 * 3 in
  let rows :=
    GoInt.sub (GoInt.sub (GoInt.sub (h m) topRows) bottomRows) borders in
  let rows := if rows <? 5 then 5 else rows in
  let cols := GoInt.div (GoInt.sub (w m) 2) 2 in
  let cols := if cols <? 10 then 10 else cols in
  mkModel (w m) (h m) rows cols (frameDur m) (tickGen m) (dist m)
    (GoInt.sub rows 2) (velY m) (obstacles m) (highScore m) (gameOver m)
    (restartAt m).

(* restart a new run *)
Definition restart (m : model) : model * Cmd :=
  let gen := GoInt.add (tickGen m) 1 in
  (mkModel (w m) (h m) (gameRows m) (gameCols m) startFrame gen 0
     (GoInt.sub (gameRows m) 2) 0 [] (highScore m) false (restartAt m),
   tickAfter startFrame gen).

Definition Init (m : model) : Cmd := tickAfter (frameDur m) (tickGen m).

Definition setGameOver (m : model) : IO model :=
  now <- time_Now ;;
  let at_ := now + cooldownSeconds * Second in
  if highScore m <? dist m then
    _ <- saveHighScore (dist m) ;;
    ret (mkModel (w m) (h m) (gameRows m) (gameCols m) (frameDur m)
           (tickGen m) (dist m) (playerY m) (velY m) (obstacles m)
           (dist m) true at_)
  else
    ret (mkModel (w m) (h m) (gameRows m) (gameCols m) (frameDur m)
           (tickGen m) (dist m) (playerY m) (velY m) (obstacles m)
           (highScore m) true at_).

(** The field assignments of the gameplay step. *)
Definition set_motion (m : model) (d y v : Z) : model :=
  mkModel (w m) (h m) (gameRows m) (gameCols m) (frameDur m) (tickGen m)
    d y v (obstacles m) (highScore m) (gameOver m) (restartAt m).

Definition set_velY (m : model) (v : Z) : model :=
  set_motion m (dist m) (playerY m) v.

Definition set_obstacles (m : model) (obs : list obstacle) : model :=
  mkModel (w m) (h m) (gameRows m) (gameCols m) (frameDur m) (tickGen m)
    (dist m) (playerY m) (velY m) obs (highScore m) (gameOver m)
    (restartAt m).

Definition set_frameDur (m : model) (d : Z) : model :=
  mkModel (w m) (h m) (gameRows m) (gameCols m) d (tickGen m)
    (dist m) (playerY m) (velY m) (obstacles m) (highScore m) (gameOver m)
    (restartAt m).

(** [m.dist++] and the physics block. *)
Definition physics (m : model) : model :=
  let d := GoInt.add (dist m) 1 in
  let v := GoInt.add (velY m) gravity in
  let y := GoInt.add (playerY m) v in
  if restY m <=? y then set_motion m d (restY m) 0 else set_motion m d y v.

(** The loop that shifts obstacles, [kept] being the slice built so far.
    In the source [kept] shares the array of [m.obstacles]; it is written
    only behind the position the loop reads, so the loop is a filter. *)
Fixpoint shift_loop (obs kept : list obstacle) : list obstacle :=
  match obs with
  | [] => kept
  | ob :: rest =>
      let ob' := mkObstacle (GoInt.sub (x ob) 1) (typ ob) in
      if -1 <=? x ob' then shift_loop rest (kept ++ [ob'])
      else shift_loop rest kept
  end.

(** The loop that finds the right-most obstacle. *)
Fixpoint furthest_loop (obs : list obstacle) (furthest : Z) : Z :=
  match obs with
  | [] => furthest
  | ob :: rest =>
      furthest_loop rest (if furthest <? x ob then x ob else furthest)
  end.

(** spawn new obstacle if last is far enough; [&&] draws only when its left
    operand holds. *)
Definition spawn (m : model) : IO model :=
  let furthest := furthest_loop (obstacles m) (-1) in
  if furthest <? GoInt.sub (GoInt.sub (gameCols m) minGapCells) 1 then
    f <- rng_Float64 ;;
    if Qltb f spawnChance then
      g <- rng_Float64 ;;
      let kind := if Qltb g rockChance then "rock"%string else "hole"%string in
      r <- rng_Intn 4 ;;
      let spawn := GoInt.add (gameCols m) r in
      ret (set_obstacles m (obstacles m ++ [mkObstacle spawn kind]))
    else ret m
  else ret m.

(** One round of the collision loop. *)
Definition collide1 (ob : obstacle) (m : model) : IO model :=
  if x ob =? 2 then
    if String.eqb (typ ob) "hole" then
      if restY m <=? playerY m then setGameOver m else ret m
    else if String.eqb (typ ob) "rock" then
      if playerY m =? restY m then setGameOver m else ret m
    else ret m
  else ret m.

Fixpoint collide (obs : list obstacle) (m : model) : IO model :=
  match obs with
  | [] => ret m
  | ob :: rest => m' <- collide1 ob m ;; collide rest m'
  end.

(** The gameplay step of an accepted tick. *)
Definition step (m : model) : IO (model * option Cmd) :=
  let m := physics m in
  let m := set_obstacles m (shift_loop (obstacles m) []) in
  m <- spawn m ;;
  m <- collide (obstacles m) m ;;
  let m := set_frameDur m (accelerate (frameDur m)) in
  ret (m, Some (tickAfter (frameDur m) (tickGen m))).

Definition is_quit (key : string) : bool :=
  String.eqb key "q" || String.eqb key "ctrl+c".

Definition is_jump (key : string) : bool :=
  String.eqb key " " || String.eqb key "w".

(** [Update].  In [return m, m.restart()] the call runs before the operand
    [m] is read (the order the gc compiler takes), so the model handed back
    is the restarted one. *)
Definition Update (m : model) (msg : Msg) : IO (model * option Cmd) :=
  match msg with
  | WindowSizeMsg Width Height =>
      let m := mkModel Width Height (gameRows m) (gameCols m) (frameDur m)
                 (tickGen m) (dist m) (playerY m) (velY m) (obstacles m)
                 (highScore m) (gameOver m) (restartAt m) in
      ret (recalcSizes m, None)
  | KeyMsg key =>
      if is_quit key then ret (m, Some Quit)
      else if is_jump key then
        if gameOver m then
          now <- time_Now ;;
          if restartAt m <? now then
            let (m', c) := restart m in ret (m', Some c)
          else ret (m, None)
        else if playerY m =? restY m then ret (set_velY m jumpVel, None)
        else ret (m, None)
      else ret (m, None)
  | tickMsg gen =>
      if negb (gen =? tickGen m) then ret (m, None)
      else if gameOver m then
        ret (m, Some (tickAfter gameOverTick (tickGen m)))
      else if (gameRows m =? 0) || (gameCols m =? 0) then
        ret (m, Some (tickAfter (frameDur m) (tickGen m)))
      else step m
  | otherMsg => ret (m, None)
  end.

(** The three results of one [Update]. *)
Definition next (m : model) (msg : Msg) (wl : World) : model :=
  fst (fst (Update m msg wl)).
Definition cmd_of (m : model) (msg : Msg) (wl : World) : option Cmd :=
  snd (fst (Update m msg wl)).
Definition world_of (m : model) (msg : Msg) (wl : World) : World :=
  snd (Update m msg wl).

(** Where the high score is kept, as this world resolves it. *)
Definition score_path (wl : World) : string := fst (scoreFilePath wl).

(** What the next [time.Now()] will read. *)
Definition now_of (wl : World) : Z := clock wl (clock_reads wl).

(** [n] accepted ticks in a row, each tagged with the generation current
    when it is delivered. *)
Fixpoint run_ticks (n : nat) (m : model) : IO model :=
  match n with
  | O => ret m
  | S k => r <- Update m (tickMsg (tickGen m)) ;; run_ticks k (fst r)
  end.

(** Deliver messages one after the other. *)
Fixpoint deliver (ms : list Msg) (m : model) : IO model :=
  match ms with
  | [] => ret m
  | msg :: rest => r <- Update m msg ;; deliver rest (fst r)
  end.

(** The gameplay step runs: the game is on and the grid has been sized. *)
Definition playing (m : model) : Prop :=
  gameOver m = false /\ gameRows m <> 0 /\ gameCols m <> 0.

(** An obstacle that ends the run when it stands in the player's column. *)
Definition hazard (ob : obstacle) : Prop :=
  typ ob = "hole"%string \/ typ ob = "rock"%string.

(** An obstacle one cell further left, as the scroll leaves it. *)
Definition scrolled (ob : obstacle) : obstacle :=
  mkObstacle (GoInt.sub (x ob) 1) (typ ob).

(** Still drawn or about to be: not more than one cell past the left edge. *)
Definition on_screen (ob : obstacle) : bool := -1 <=? x ob.

(** The test of one round of the collision loop. *)
Definition hits (m : model) (ob : obstacle) : bool :=
  (x ob =? 2)
  && ((String.eqb (typ ob) "hole" && (restY m <=? playerY m))
      || (negb (String.eqb (typ ob) "hole")
          && String.eqb (typ ob) "rock" && (playerY m =? restY m))).

(** The fields the collision loop and [setGameOver] never write. *)
Definition frame (m m' : model) : Prop :=
  w m' = w m /\ h m' = h m /\ gameRows m' = gameRows m
  /\ gameCols m' = gameCols m /\ frameDur m' = frameDur m
  /\ tickGen m' = tickGen m /\ dist m' = dist m /\ playerY m' = playerY m
  /\ velY m' = velY m /\ obstacles m' = obstacles m.

(** What a spawn may add behind the obstacles [obs] already there, on a
    grid of [cols] columns. *)
Definition spawned (cols : Z) (obs extra : list obstacle) : Prop :=
  extra = []
  \/ exists r kind,
       extra = [mkObstacle (GoInt.add cols r) kind]
       /\ 0 <= r <= 3
       /\ (kind = "hole"%string \/ kind = "rock"%string)
       /\ furthest_loop obs (-1) < GoInt.sub (GoInt.sub cols minGapCells) 1.

(** What every state the program can reach satisfies. *)
Record Inv (m : model) : Prop := mkInv {
  inv_frame : 0 <= frameDur m <= startFrame;
  inv_grid  : (gameRows m = 0 /\ gameCols m = 0 /\ obstacles m = [])
              \/ (5 <= gameRows m <= GoInt.max_int
                  /\ 10 <= gameCols m <= 2 ^ 62 - 1);
  inv_obs   : Forall (fun ob => -1 <= x ob <= 2 ^ 62 + 2) (obstacles m)
}.

(* ------------------------------------------------------------------------ *)
(** ** Concrete worlds and states used by the examples *)
(* ------------------------------------------------------------------------ *)

Module Scenario.

(** A world whose random source never lets an obstacle spawn. *)
Definition quiet : World :=
  mkWorld (fun k => 5 * Second + Z.of_nat k) 0 (fun _ => 2 ^ 53 - 1) 0
    (Some "/home/gopher"%string) (fun _ => None) (fun _ => true).

(** A world whose random source spawns a rock whenever the gap allows. *)
Definition busy : World :=
  mkWorld (fun k => 5 * Second + Z.of_nat k) 0 (fun _ => 0) 0
    (Some "/home/gopher"%string) (fun _ => None) (fun _ => true).

(** The quiet world eight seconds in. *)
Definition later : World :=
  mkWorld (fun k => 8 * Second + Z.of_nat k) 0 (fun _ => 2 ^ 53 - 1) 0
    (Some "/home/gopher"%string) (fun _ => None) (fun _ => true).

(** On a 42 x 18 terminal, one tick after a jump. *)
Definition airborne : model :=
  mkModel 42 18 10 20 44910000 0 1 5 (-3) [] 0 false 0.

(** On the ground with a hole in the cell next to the player's column. *)
Definition hole_ahead : model :=
  mkModel 42 18 10 20 startFrame 0 0 8 0
    [mkObstacle 3 "hole"; mkObstacle 12 "rock"] 0 false 0.

(** The same, the jump key just pressed. *)
Definition hole_ahead_jumping : model :=
  mkModel 42 18 10 20 startFrame 0 0 8 (-4)
    [mkObstacle 3 "hole"; mkObstacle 12 "rock"] 0 false 0.

(** A finished run whose cooldown ends at second 7. *)
Definition finished : model :=
  mkModel 42 18 10 20 40000000 3 120 8 0
    [mkObstacle 2 "rock"; mkObstacle 11 "hole"] 120 true (7 * Second).

(** The same world with a score file holding [content]. *)
Definition with_score (content : string) : World :=
  mkWorld (fun k => 5 * Second + Z.of_nat k) 0 (fun _ => 2 ^ 53 - 1) 0
    (Some "/home/gopher"%string)
    (fun p => if String.eqb p "/home/gopher/.gopherdash_highscore"
              then Some (list_ascii_of_string content) else None)
    (fun _ => true).

(** The first state with a sized grid. *)
Definition sized : model :=
  fst (deliver [WindowSizeMsg 42 18] (fst (initialModel quiet)) quiet).

(** Size the terminal and let eight ticks pass in the busy world. *)
Definition opening : list Msg :=
  WindowSizeMsg 42 18 :: repeat (tickMsg 0) 8.

Definition after_opening : model :=
  fst (deliver opening (fst (initialModel busy)) busy).

(** Five quiet ticks later: on the ground, a rock six cells ahead. *)
Definition rock_in_six : model := fst (run_ticks 5 after_opening quiet).

End Scenario.

(* ------------------------------------------------------------------------ *)
(** ** RENDER HELPERS *)
(* ------------------------------------------------------------------------ *)

(** A Unicode code point.  A valid UTF-8 string is given by its runes. *)
Definition rune : Type := Z.

Definition space_rune : rune := 32.

(** [pad]: pad right to [n] runes.  [None] is the run-time panic of
    [r[:n]] for a negative [n]. *)
Definition pad (s : list rune) (n : Z) : option (list rune) :=
  if n <=? Z.of_nat (List.length s) then
    if n <? 0 then None else Some (firstn (Z.to_nat n) s)
  else
    Some (s ++ repeat space_rune (Z.to_nat (n - Z.of_nat (List.length s)))).

(** The sprites, as their UTF-8 bytes: U+1F439, U+1F7EB, U+1FAA8. *)
Definition sprite (b1 b2 b3 b4 : N) : string :=
  String (ascii_of_N b1) (String (ascii_of_N b2)
    (String (ascii_of_N b3) (String (ascii_of_N b4) EmptyString))).

Definition playerChar : string := sprite 240 159 144 185.
Definition groundChar : string := sprite 240 159 159 171.
Definition rockChar : string := sprite 240 159 170 168.
Definition blank : string := "  ".

(** The cells of the game pane, row by row. *)
Definition Grid : Type := list (list string).

(** [l[n] = v]; [None] stands for the index-out-of-range panic. *)
Fixpoint set_nth {A : Type} (n : nat) (v : A) (l : list A) : option (list A) :=
  match l, n with
  | [], _ => None
  | _ :: t, O => Some (v :: t)
  | a :: t, S k =>
      match set_nth k v t with
      | Some t' => Some (a :: t')
      | None => None
      end
  end.

(** [rows[r][c] = v] *)
Definition set_cell (r c : Z) (v : string) (g : Grid) : option Grid :=
  if (r <? 0) || (c <? 0) then None
  else
    match nth_error g (Z.to_nat r) with
    | None => None
    | Some row =>
        match set_nth (Z.to_nat c) v row with
        | None => None
        | Some row' => set_nth (Z.to_nat r) row' g
        end
    end.

(** [rows[r][c]], when the indices are in range. *)
Definition cell (g : Grid) (r c : Z) : option string :=
  if (r <? 0) || (c <? 0) then None
  else
    match nth_error g (Z.to_nat r) with
    | None => None
    | Some row => nth_error row (Z.to_nat c)
    end.

(** [for x := 0; x < m.gameCols; x++ { rows[groundY][x] = groundChar }],
    from column [x] on, for at most [fuel] rounds. *)
Fixpoint ground_loop (fuel : nat) (x cols groundY : Z) (g : Grid)
  : option Grid :=
  match fuel with
  | O => Some g
  | S k =>
      if x <? cols then
        match set_cell groundY x groundChar g with
        | Some g' => ground_loop k (GoInt.add x 1) cols groundY g'
        | None => None
        end
      else Some g
  end.

(** One round of the loop that draws the obstacles. *)
Definition draw_obstacle (cols groundY : Z) (ob : obstacle) (g : Grid)
  : option Grid :=
  if (x ob <? 0) || (cols <=? x ob) then Some g
  else if String.eqb (typ ob) "hole" then set_cell groundY (x ob) blank g
  else if String.eqb (typ ob) "rock" then
    if 0 <=? GoInt.sub groundY 1
    then set_cell (GoInt.sub groundY 1) (x ob) rockChar g
    else Some g
  else Some g.

Fixpoint draw_obstacles (cols groundY : Z) (obs : list obstacle) (g : Grid)
  : option Grid :=
  match obs with
  | [] => Some g
  | ob :: rest =>
      match draw_obstacle cols groundY ob g with
      | Some g' => draw_obstacles cols groundY rest g'
      | None => None
      end
  end.

Definition draw_player (m : model) (g : Grid) : option Grid :=
  let px := 2 in
  let py := playerY m in
  if (0 <=? py) && (py <? gameRows m) && (px <? gameCols m)
  then set_cell py px playerChar g
  else Some g.

(** The grid [renderGame] builds before it joins the cells, for a grid
    that is not empty.  [None] is a panic: [make] with a negative length,
    or an index out of range. *)
Definition renderGrid (m : model) : option Grid :=
  if (gameRows m <? 0) || (gameCols m <? 0) then None
  else
    let rows :=
      repeat (repeat blank (Z.to_nat (gameCols m))) (Z.to_nat (gameRows m)) in
    let groundY := GoInt.sub (gameRows m) 1 in
    match ground_loop (Z.to_nat (gameCols m)) 0 (gameCols m) groundY rows with
    | None => None
    | Some g1 =>
        match draw_obstacles (gameCols m) groundY (obstacles m) g1 with
        | None => None
        | Some g2 => draw_player m g2
        end
    end.

Definition newline : string := String (ascii_of_N 10) EmptyString.

(* build grid when game is running *)
Definition renderGame (m : model) : option string :=
  if (gameRows m =? 0) || (gameCols m =? 0) then Some EmptyString
  else
    match renderGrid m with
    | None => None
    | Some g => Some (String.concat newline (map (String.concat "") g))
    end.

(** Is there an obstacle of this kind in column [c]. *)
Definition kind_at (kind : string) (c : Z) (obs : list obstacle) : bool :=
  existsb (fun ob => (x ob =? c) && String.eqb (typ ob) kind) obs.

(** What [renderGame] shows in row [r], column [c]. *)
Definition shown (m : model) (r c : Z) : string :=
  if (r =? playerY m) && (c =? 2) then playerChar
  else if r =? gameRows m - 1 then
    if kind_at "hole" c (obstacles m) then blank else groundChar
  else if r =? gameRows m - 2 then
    if kind_at "rock" c (obstacles m) then rockChar else blank
  else blank.

(** A grid of [R] rows of [C] cells. *)
Definition rect (R C : nat) (g : Grid) : Prop :=
  List.length g = R /\ Forall (fun row => List.length row = C) g.

(* ------------------------------------------------------------------------ *)
(** ** Further notions for the properties below *)
(* ------------------------------------------------------------------------ *)

(** [b] lies at least [minGapCells + 2] cells to the right of [a]. *)
Definition apart (a b : obstacle) : Prop := x a + minGapCells + 2 <= x b.

(** Obstacles in increasing position, any two at least six cells apart. *)
Definition spaced (obs : list obstacle) : Prop := StronglySorted apart obs.

(** The two worlds hold the same files under the same directory. *)
Definition same_disk (wl wl' : World) : Prop :=
  cwd wl' = cwd wl /\ files wl' = files wl /\ writable wl' = writable wl.

(** A message the runtime can deliver: a terminal has a size that is not
    negative. *)
Definition sane (msg : Msg) : Prop :=
  match msg with
  | WindowSizeMsg Width Height =>
      0 <= Width <= GoInt.max_int /\ 0 <= Height <= GoInt.max_int
  | _ => True
  end.

(** The states the program goes through: the initial model, then one
    [Update] per message. *)
Inductive reachable : model -> Prop :=
| reach_init wl : reachable (fst (initialModel wl))
| reach_step m msg wl :
    reachable m -> sane msg -> reachable (next m msg wl).

(** What holds of every reachable state, beside [Inv]. *)
Record Safe (m : model) : Prop := mkSafe {
  safe_inv    : Inv m;
  safe_floor  : gameRows m <> 0 -> playerY m <= restY m;
  safe_kinds  : Forall hazard (obstacles m);
  safe_spaced : spaced (obstacles m);
  safe_score  : 0 <= highScore m <= GoInt.max_int;
  safe_dist   : GoInt.in_range (dist m)
}.

(** The message is a tick of the generation the model is in. *)
Definition accepted_tick (m : model) (msg : Msg) : Prop :=
  msg = tickMsg (tickGen m).

(** The message is a jump key that restarts the finished game. *)
Definition accepted_restart (m : model) (msg : Msg) (wl : World) : Prop :=
  exists key,
    msg = KeyMsg key /\ is_quit key = false /\ is_jump key = true
    /\ gameOver m = true /\ restartAt m < now_of wl.

(** The physics block on the pair (height, velocity) of the player, [R]
    being the rest height. *)
Definition arc (R : Z) (yv : Z * Z) : Z * Z :=
  let v := GoInt.add (snd yv) gravity in
  let y := GoInt.add (fst yv) v in
  if R <=? y then (R, 0) else (y, v).

(** How many rows above the rest height the player is, [n] ticks after
    the jump key. *)
Definition jump_height (n : nat) : Z := nth n [0; 3; 5; 6; 6; 5; 3; 0] 0.

(** The greatest height above rest the player can have at velocity [v]. *)
Definition peak (v : Z) : Z :=
  nth (Z.to_nat (v + 4)) [0; 3; 5; 6; 6; 5; 3] 0.

(** Where the player can be: untouched before the grid is sized, then on
    or under the arc of a jump. *)
Definition in_flight (m : model) : Prop :=
  (gameRows m = 0 /\ playerY m = 0 /\ velY m = 0 /\ gameOver m = false)
  \/ (gameRows m <> 0 /\ gameRows m <= GoInt.max_int - 8
      /\ -4 <= velY m <= 2
      /\ 0 <= restY m - playerY m <= peak (velY m)).

(** Split a hypothesis [H : 0 <= d <= 9] into the ten digits. *)
Ltac each_digit H :=
  match type of H with
  | 0 <= ?d <= 9 =>
      let C := fresh "C" in
      assert (C : d = 0 \/ d = 1 \/ d = 2 \/ d = 3 \/ d = 4 \/ d = 5
                  \/ d = 6 \/ d = 7 \/ d = 8 \/ d = 9) by lia;
      clear H;
      repeat (destruct C as [C | C]; [subst |]); subst
  end.

(* ------------------------------------------------------------------------ *)
(** ** Go's [int]: facts *)
(* ------------------------------------------------------------------------ *)

Lemma wrap_id z : GoInt.in_range z -> GoInt.wrap z = z.
Proof.
  unfold GoInt.in_range, GoInt.wrap, GoInt.min_int, GoInt.max_int. intros H.
  rewrite Z.mod_small by lia. lia.
Qed.

Lemma wrap_in_range z : GoInt.in_range (GoInt.wrap z).
Proof.
  unfold GoInt.in_range, GoInt.wrap, GoInt.min_int, GoInt.max_int.
  pose proof (Z.mod_pos_bound (z + 2 ^ 63) (2 ^ 64) ltac:(lia)). lia.
Qed.

Lemma add_exact a b : GoInt.in_range (a + b) -> GoInt.add a b = a + b.
Proof. apply wrap_id. Qed.

Lemma sub_exact a b : GoInt.in_range (a - b) -> GoInt.sub a b = a - b.
Proof. apply wrap_id. Qed.

(* ------------------------------------------------------------------------ *)
(** ** Ticks that are not gameplay *)
(* ------------------------------------------------------------------------ *)

(** C1. A tick whose generation tag differs from the model's generation is
    dropped: the model that comes back is the model that went in, field for
    field, no command is scheduled, and the world is not touched. *)
Theorem stale_tick_dropped (m : model) (gen : Z) (wl : World) :
  gen <> tickGen m ->
  Update m (tickMsg gen) wl = (m, None, wl).
Proof.
  intros Hgen. unfold Update.
  destruct (Z.eqb_spec gen (tickGen m)) as [E | _]; [contradiction | reflexivity].
Qed.

Lemma stale_tick_dropped_witness :
  3 <> tickGen Scenario.hole_ahead /\
  Update Scenario.hole_ahead (tickMsg 3) Scenario.busy
  = (Scenario.hole_ahead, None, Scenario.busy).
Proof.
  split; [discriminate | apply (stale_tick_dropped Scenario.hole_ahead 3)].
  discriminate.
Defined.

(** C10. While the game is over, a tick of the current generation changes
    no field of the model and asks for the next tick after the fixed
    game-over period of 250 ms, whatever [frameDur] is. *)
Theorem game_over_tick_idles (m : model) (wl : World) :
  gameOver m = true ->
  Update m (tickMsg (tickGen m)) wl
  = (m, Some (Tick gameOverTick (tickGen m)), wl)
  /\ gameOverTick = 250 * 1000000.
Proof.
  intros Hover. split; [| reflexivity].
  unfold Update. rewrite Z.eqb_refl, Hover. reflexivity.
Qed.

Lemma game_over_tick_idles_witness :
  Update Scenario.finished (tickMsg 3) Scenario.quiet
  = (Scenario.finished, Some (Tick 250000000 3), Scenario.quiet).
Proof.
  exact (proj1 (game_over_tick_idles Scenario.finished Scenario.quiet eq_refl)).
Defined.

(* ------------------------------------------------------------------------ *)
(** ** Key presses *)
(* ------------------------------------------------------------------------ *)

Lemma jump_key_cases key :
  key = " "%string \/ key = "w"%string ->
  is_quit key = false /\ is_jump key = true.
Proof. intros [-> | ->]; split; reflexivity. Qed.

(** C6. While the game runs, a jump key assigns the vertical velocity exactly
    when the player stands at rest height, and then the velocity becomes the
    jump impulse -4 and nothing else changes; off the rest height the model
    comes back unchanged.  No command is issued and the world is not
    touched.  So the velocity differs afterwards only if the player stood at
    rest height, and it does differ then unless it was -4 already. *)
Theorem jump_only_from_rest (m : model) (key : string) (wl : World) :
  gameOver m = false ->
  key = " "%string \/ key = "w"%string ->
  cmd_of m (KeyMsg key) wl = None
  /\ world_of m (KeyMsg key) wl = wl
  /\ (playerY m = restY m ->
      next m (KeyMsg key) wl
      = mkModel (w m) (h m) (gameRows m) (gameCols m) (frameDur m)
          (tickGen m) (dist m) (playerY m) (-4) (obstacles m)
          (highScore m) (gameOver m) (restartAt m))
  /\ (playerY m <> restY m -> next m (KeyMsg key) wl = m)
  /\ (velY (next m (KeyMsg key) wl) <> velY m -> playerY m = restY m)
  /\ (playerY m = restY m -> velY m <> -4 ->
      velY (next m (KeyMsg key) wl) <> velY m)
  /\ jumpVel = -4.
Proof.
  intros Hrun Hkey. destruct (jump_key_cases key Hkey) as [Hq Hj].
  unfold cmd_of, world_of, next, Update. rewrite Hq, Hj, Hrun.
  destruct (Z.eqb_spec (playerY m) (restY m)) as [E | NE]; cbn;
    repeat split; try reflexivity; try congruence; intros; try contradiction.
  - unfold set_velY, set_motion. rewrite Hrun. reflexivity.
  - unfold jumpVel. congruence.
Qed.

Lemma jump_only_from_rest_witness :
  velY (next Scenario.hole_ahead (KeyMsg " ") Scenario.quiet) = -4
  /\ next Scenario.airborne (KeyMsg "w") Scenario.quiet = Scenario.airborne.
Proof.
  split.
  - destruct (jump_only_from_rest Scenario.hole_ahead " " Scenario.quiet
                eq_refl (or_introl eq_refl)) as (_ & _ & H & _).
    rewrite (H eq_refl). reflexivity.
  - destruct (jump_only_from_rest Scenario.airborne "w" Scenario.quiet
                eq_refl (or_intror eq_refl)) as (_ & _ & _ & H & _).
    apply H. discriminate.
Defined.

(** Before the cooldown has run out a jump key does nothing. *)
Lemma jump_before_cooldown (m : model) (key : string) (wl : World) :
  gameOver m = true ->
  key = " "%string \/ key = "w"%string ->
  now_of wl < restartAt m ->
  next m (KeyMsg key) wl = m /\ cmd_of m (KeyMsg key) wl = None.
Proof.
  intros Hover Hkey Hnow. destruct (jump_key_cases key Hkey) as [Hq Hj].
  unfold cmd_of, next, Update, bind, time_Now, now_of in *.
  rewrite Hq, Hj, Hover.
  destruct (Z.ltb_spec (restartAt m) (clock wl (clock_reads wl))); [lia |].
  split; reflexivity.
Qed.

(** Strictly after it, a jump key restarts. *)
Lemma jump_after_cooldown (m : model) (key : string) (wl : World) :
  gameOver m = true ->
  key = " "%string \/ key = "w"%string ->
  restartAt m < now_of wl ->
  next m (KeyMsg key) wl = fst (restart m)
  /\ cmd_of m (KeyMsg key) wl = Some (snd (restart m)).
Proof.
  intros Hover Hkey Hnow. destruct (jump_key_cases key Hkey) as [Hq Hj].
  unfold cmd_of, next, Update, bind, time_Now, now_of in *.
  rewrite Hq, Hj, Hover.
  destruct (Z.ltb_spec (restartAt m) (clock wl (clock_reads wl))); [| lia].
  split; reflexivity.
Qed.

(** C3. A restart that is accepted (the game is over, a jump key arrives,
    the clock is past [restartAt]) hands back a model with distance 0, no
    obstacles, the initial frame interval of 45 ms, the generation
    incremented by one (in Go's [int]; by exactly 1 below the largest
    [int]), [gameOver] false, velocity 0 and the player at rest height, and
    it schedules the first tick of the new generation. *)
Theorem restart_resets (m : model) (key : string) (wl : World) :
  gameOver m = true ->
  key = " "%string \/ key = "w"%string ->
  restartAt m < now_of wl ->
  let m' := next m (KeyMsg key) wl in
  dist m' = 0
  /\ obstacles m' = []
  /\ frameDur m' = 45 * 1000000
  /\ tickGen m' = GoInt.add (tickGen m) 1
  /\ (GoInt.min_int <= tickGen m < GoInt.max_int -> tickGen m' = tickGen m + 1)
  /\ gameOver m' = false
  /\ velY m' = 0
  /\ playerY m' = restY m'
  /\ gameRows m' = gameRows m /\ gameCols m' = gameCols m
  /\ highScore m' = highScore m
  /\ cmd_of m (KeyMsg key) wl = Some (Tick (45 * 1000000) (tickGen m')).
Proof.
  intros Hover Hkey Hnow m'.
  destruct (jump_after_cooldown m key wl Hover Hkey Hnow) as [Hm Hc].
  subst m'. rewrite Hm, Hc. cbn.
  repeat split; try reflexivity.
  intros Hr. apply add_exact. unfold GoInt.in_range.
  unfold GoInt.min_int, GoInt.max_int in *. lia.
Qed.

Lemma restart_resets_witness :
  restartAt Scenario.finished < now_of Scenario.later
  /\ tickGen (next Scenario.finished (KeyMsg " ") Scenario.later) = 3 + 1
  /\ obstacles (next Scenario.finished (KeyMsg " ") Scenario.later) = [].
Proof.
  split; [reflexivity |].
  pose proof (restart_resets Scenario.finished " " Scenario.later eq_refl
                (or_introl eq_refl) eq_refl) as H.
  cbv zeta in H. destruct H as (_ & Ho & _ & _ & Hg & _).
  split; [apply Hg; split; [discriminate | reflexivity] | exact Ho].
Defined.

(** C4. At the instant [restartAt] itself the restart is still refused:
    [time.Now().After(m.restartAt)] is a strict comparison, so a jump key
    that arrives when the clock reads exactly [restartAt] hands the model
    back unchanged and schedules nothing. *)
Theorem restart_refused_at_restartAt (m : model) (key : string) (wl : World) :
  gameOver m = true ->
  key = " "%string \/ key = "w"%string ->
  now_of wl = restartAt m ->
  next m (KeyMsg key) wl = m /\ cmd_of m (KeyMsg key) wl = None.
Proof.
  intros Hover Hkey Hnow. destruct (jump_key_cases key Hkey) as [Hq Hj].
  unfold cmd_of, next, Update, bind, time_Now, now_of in *.
  rewrite Hq, Hj, Hover, Hnow, Z.ltb_irrefl. split; reflexivity.
Qed.

Lemma restart_refused_at_restartAt_witness :
  let wl := mkWorld (fun _ => 7 * Second) 0 (fun _ => 0) 0 None
              (fun _ => None) (fun _ => true) in
  now_of wl = restartAt Scenario.finished
  /\ next Scenario.finished (KeyMsg " ") wl = Scenario.finished
  /\ cmd_of Scenario.finished (KeyMsg " ") wl = None.
Proof.
  cbv zeta. split; [reflexivity |].
  apply (restart_refused_at_restartAt Scenario.finished " ");
    [reflexivity | left; reflexivity | reflexivity].
Defined.

(* ------------------------------------------------------------------------ *)
(** ** Resize *)
(* ------------------------------------------------------------------------ *)

(** The state [Scenario.airborne] is one the program reaches: size the
    terminal, jump, let one tick pass. *)
Example airborne_reachable :
  fst (deliver [WindowSizeMsg 42 18; KeyMsg " "; tickMsg 0]
         (fst (initialModel Scenario.quiet)) Scenario.quiet)
  = Scenario.airborne.
Proof. vm_compute. reflexivity. Qed.

(** C5, as stated, fails: a resize during a jump changes the current player
    height.  Here the player is at row 5 of a 10-row grid, and a resize to
    the very same terminal size puts the player on row 8. *)
Lemma resize_moves_airborne_player :
  gameOver Scenario.airborne = false
  /\ playerY (next Scenario.airborne (WindowSizeMsg 42 18) Scenario.quiet)
     <> playerY Scenario.airborne.
Proof. split; [reflexivity | vm_compute; discriminate]. Qed.

(** C5, amended. A resize stores the terminal size, recomputes the grid
    ([gameRows] is [h - 8] but at least 5, [gameCols] is [(w - 2) / 2] but
    at least 10) and puts the player at the new rest height
    [gameRows - 2]; distance, vertical velocity, obstacles, frame interval,
    generation, game-over flag, high score and [restartAt] are unchanged,
    no command is issued and the world is not touched. *)
Theorem resize_recomputes_grid (m : model) (Width Height : Z) (wl : World) :
  let m' := next m (WindowSizeMsg Width Height) wl in
  cmd_of m (WindowSizeMsg Width Height) wl = None
  /\ world_of m (WindowSizeMsg Width Height) wl = wl
  /\ w m' = Width /\ h m' = Height
  /\ gameRows m'
     = Z.max 5 (GoInt.sub (GoInt.sub (GoInt.sub Height 1) 1) 6)
  /\ gameCols m' = Z.max 10 (GoInt.div (GoInt.sub Width 2) 2)
  /\ (0 <= Height <= GoInt.max_int -> gameRows m' = Z.max 5 (Height - 8))
  /\ (0 <= Width <= GoInt.max_int ->
      gameCols m' = Z.max 10 (Z.quot (Width - 2) 2))
  /\ playerY m' = gameRows m' - 2
  /\ playerY m' = restY m'
  /\ dist m' = dist m
  /\ velY m' = velY m
  /\ obstacles m' = obstacles m
  /\ frameDur m' = frameDur m
  /\ tickGen m' = tickGen m
  /\ gameOver m' = gameOver m
  /\ highScore m' = highScore m
  /\ restartAt m' = restartAt m.
Proof.
  intros m'. subst m'. unfold cmd_of, world_of, next, Update, ret. cbn.
  set (rows := GoInt.sub (GoInt.sub (GoInt.sub Height 1) 1) 6).
  set (cols := GoInt.div (GoInt.sub Width 2) 2).
  assert (Hrows : (if rows <? 5 then 5 else rows) = Z.max 5 rows)
    by (destruct (Z.ltb_spec rows 5); lia).
  assert (Hcols : (if cols <? 10 then 10 else cols) = Z.max 10 cols)
    by (destruct (Z.ltb_spec cols 10); lia).
  rewrite Hrows, Hcols.
  assert (Hr : GoInt.in_range rows) by apply wrap_in_range.
  assert (Hy : GoInt.sub (Z.max 5 rows) 2 = Z.max 5 rows - 2).
  { apply sub_exact. unfold GoInt.in_range, GoInt.min_int, GoInt.max_int in *.
    lia. }
  unfold restY; cbn. rewrite Hy.
  repeat split; try reflexivity.
  - intros HH. f_equal. subst rows.
    unfold GoInt.max_int in HH.
    rewrite !sub_exact;
      unfold GoInt.in_range, GoInt.min_int, GoInt.max_int;
      rewrite ?sub_exact;
      unfold GoInt.in_range, GoInt.min_int, GoInt.max_int; try lia.
    rewrite ?sub_exact;
      unfold GoInt.in_range, GoInt.min_int, GoInt.max_int; lia.
  - intros HW. f_equal. subst cols. unfold GoInt.div.
    unfold GoInt.max_int in HW.
    rewrite (sub_exact Width 2)
      by (unfold GoInt.in_range, GoInt.min_int, GoInt.max_int; lia).
    apply wrap_id. unfold GoInt.in_range, GoInt.min_int, GoInt.max_int.
    assert (-1 <= Z.quot (Width - 2) 2 <= Width).
    { destruct (Z_le_gt_dec 2 Width).
      - rewrite Z.quot_div_nonneg by lia.
        pose proof (Z.div_le_upper_bound (Width - 2) 2 Width ltac:(lia) ltac:(lia)).
        pose proof (Z.div_pos (Width - 2) 2 ltac:(lia) ltac:(lia)). lia.
      - assert (Width = 0 \/ Width = 1) as [-> | ->] by lia; cbn; lia. }
    lia.
  - fold rows. rewrite Hrows. symmetry. exact Hy.
Qed.

Lemma resize_recomputes_grid_witness :
  gameRows (next Scenario.airborne (WindowSizeMsg 100 30) Scenario.quiet) = 22
  /\ gameCols (next Scenario.airborne (WindowSizeMsg 100 30) Scenario.quiet)
     = 49.
Proof.
  destruct (resize_recomputes_grid Scenario.airborne 100 30 Scenario.quiet)
    as (_ & _ & _ & _ & _ & _ & Hr & Hc & _).
  split.
  - rewrite Hr; [reflexivity | split; [lia | discriminate]].
  - rewrite Hc; [reflexivity | split; [lia | discriminate]].
Defined.

(* ------------------------------------------------------------------------ *)
(** ** The gameplay step, piece by piece *)
(* ------------------------------------------------------------------------ *)

Lemma frame_refl m : frame m m.
Proof. unfold frame. repeat split. Qed.

Lemma frame_trans m1 m2 m3 : frame m1 m2 -> frame m2 m3 -> frame m1 m3.
Proof. unfold frame. intuition congruence. Qed.

Lemma frame_hits m m' ob : frame m m' -> hits m' ob = hits m ob.
Proof.
  unfold frame, hits, restY. intros (_ & _ & Hr & _ & _ & _ & _ & Hy & _).
  rewrite Hr, Hy. reflexivity.
Qed.

Lemma hits_ext m m' ob :
  gameRows m' = gameRows m -> playerY m' = playerY m -> hits m' ob = hits m ob.
Proof. unfold hits, restY. intros -> ->. reflexivity. Qed.

Lemma frame_existsb_hits m m' obs :
  frame m m' -> existsb (hits m') obs = existsb (hits m) obs.
Proof.
  intros Hf. induction obs as [| o r IH]; cbn; [reflexivity |].
  now rewrite (frame_hits m m' o Hf), IH.
Qed.

Lemma setGameOver_spec m wl :
  let m' := fst (setGameOver m wl) in
  frame m m' /\ gameOver m' = true
  /\ restartAt m' = now_of wl + 2 * Second
  /\ highScore m' = Z.max (highScore m) (dist m).
Proof.
  unfold setGameOver, bind, time_Now, now_of, ret.
  destruct (Z.ltb_spec (highScore m) (dist m)).
  - destruct (saveHighScore _ _) as [u wl']. cbn.
    unfold frame; cbn. repeat split; lia.
  - cbn. unfold frame; cbn. repeat split; lia.
Qed.

Lemma collide1_spec ob m wl :
  let m' := fst (collide1 ob m wl) in
  frame m m' /\ gameOver m' = gameOver m || hits m ob.
Proof.
  unfold collide1, hits, ret.
  destruct (x ob =? 2); cbn [andb];
    [| split; [apply frame_refl | cbn; now rewrite orb_false_r]].
  destruct (String.eqb (typ ob) "hole"); cbn [andb orb negb].
  - destruct (restY m <=? playerY m).
    + destruct (setGameOver_spec m wl) as (Hf & Hg & _).
      split; [exact Hf | rewrite Hg; now rewrite orb_true_r].
    + split; [apply frame_refl | cbn; now rewrite orb_false_r].
  - destruct (String.eqb (typ ob) "rock"); cbn [andb].
    + destruct (playerY m =? restY m).
      * destruct (setGameOver_spec m wl) as (Hf & Hg & _).
        split; [exact Hf | rewrite Hg; now rewrite orb_true_r].
      * split; [apply frame_refl | cbn; now rewrite orb_false_r].
    + split; [apply frame_refl | cbn; now rewrite orb_false_r].
Qed.

Lemma collide_spec obs : forall m wl,
  let m' := fst (collide obs m wl) in
  frame m m' /\ gameOver m' = gameOver m || existsb (hits m) obs.
Proof.
  induction obs as [| ob rest IH]; intros m wl; cbn.
  - split; [apply frame_refl | now rewrite orb_false_r].
  - unfold bind. pose proof (collide1_spec ob m wl) as H1.
    destruct (collide1 ob m wl) as [m1 wl1]. cbn in H1. destruct H1 as [Hf1 Hg1].
    specialize (IH m1 wl1). cbn in IH. destruct IH as [Hf Hg].
    split; [eapply frame_trans; eassumption |].
    rewrite Hg, Hg1, orb_assoc. f_equal.
    apply frame_existsb_hits. exact Hf1.
Qed.

(** After the physics block the player is never below the rest height. *)
Lemma physics_spec m :
  let m' := physics m in
  playerY m' <= restY m' /\ gameRows m' = gameRows m
  /\ gameCols m' = gameCols m /\ obstacles m' = obstacles m
  /\ gameOver m' = gameOver m /\ frameDur m' = frameDur m
  /\ tickGen m' = tickGen m /\ dist m' = GoInt.add (dist m) 1.
Proof.
  unfold physics, restY.
  destruct (Z.leb_spec (GoInt.sub (gameRows m) 2)
              (GoInt.add (playerY m) (GoInt.add (velY m) gravity)));
    cbn; repeat split; lia.
Qed.

(** The shift loop is: move every obstacle one cell left, keep those still
    on screen, in the order they had. *)
Lemma shift_loop_spec obs : forall kept,
  shift_loop obs kept = kept ++ filter on_screen (map scrolled obs).
Proof.
  induction obs as [| ob rest IH]; intros kept; cbn.
  - now rewrite app_nil_r.
  - unfold on_screen at 1. cbn.
    destruct (-1 <=? GoInt.sub (x ob) 1).
    + rewrite IH, <- app_assoc. reflexivity.
    + apply IH.
Qed.

(** The furthest loop computes the largest position, or the start value. *)
Lemma furthest_loop_spec obs : forall f,
  furthest_loop obs f = fold_right Z.max f (map x obs).
Proof.
  induction obs as [| ob rest IH]; intros f; cbn; [reflexivity |].
  rewrite IH. destruct (Z.ltb_spec f (x ob)).
  - clear IH. induction rest as [| o r IHr]; cbn; lia.
  - clear IH. induction rest as [| o r IHr]; cbn; lia.
Qed.

Lemma furthest_loop_bound obs f ob :
  In ob obs -> x ob <= furthest_loop obs f.
Proof.
  rewrite furthest_loop_spec. induction obs as [| o r IH]; cbn; [tauto |].
  intros [-> | Hin]; [lia | specialize (IH Hin); lia].
Qed.

Lemma spawn_spec m wl :
  let m' := fst (spawn m wl) in
  exists extra,
    m' = set_obstacles m (obstacles m ++ extra)
    /\ spawned (gameCols m) (obstacles m) extra.
Proof.
  unfold spawn, bind, ret, rng_Float64, rng_Intn, next_raw.
  destruct (Z.ltb_spec (furthest_loop (obstacles m) (-1))
              (GoInt.sub (GoInt.sub (gameCols m) minGapCells) 1)) as [Hgap | _].
  - cbn. destruct (Qltb _ spawnChance); cbn.
    + eexists. split; [reflexivity |]. right.
      eexists. eexists. split; [reflexivity |].
      split; [| split; [| exact Hgap]].
      * pose proof (Z.mod_pos_bound (rand wl (S (S (rand_draws wl)))) 4
                      ltac:(lia)). lia.
      * destruct (Qltb _ rockChance); [right | left]; reflexivity.
    + exists []. split; [| left; reflexivity].
      rewrite app_nil_r. destruct m; reflexivity.
  - exists []. split; [| left; reflexivity].
    cbn. rewrite app_nil_r. destruct m; reflexivity.
Qed.

(** The whole gameplay step. *)
Lemma step_spec m wl :
  let m' := fst (fst (step m wl)) in
  let kept := filter on_screen (map scrolled (obstacles m)) in
  exists extra,
    obstacles m' = kept ++ extra
    /\ spawned (gameCols m) kept extra
    /\ playerY m' = playerY (physics m)
    /\ velY m' = velY (physics m)
    /\ playerY m' <= restY m'
    /\ gameRows m' = gameRows m
    /\ gameCols m' = gameCols m
    /\ tickGen m' = tickGen m
    /\ dist m' = GoInt.add (dist m) 1
    /\ frameDur m' = accelerate (frameDur m)
    /\ gameOver m' = gameOver m || existsb (hits m') (obstacles m')
    /\ snd (fst (step m wl)) = Some (Tick (frameDur m') (tickGen m)).
Proof.
  unfold step, bind, ret.
  destruct (physics_spec m) as (Hy & Hr & Hc & Ho & Hg & Hd & Ht & Hdist).
  set (p := physics m) in *.
  rewrite shift_loop_spec. cbn [app].
  set (m1 := set_obstacles p _).
  destruct (spawn_spec m1 wl) as (extra & Hsp & Hspawned).
  destruct (spawn m1 wl) as [m2 wl2]. cbn [fst] in Hsp.
  pose proof (collide_spec (obstacles m2) m2 wl2) as Hcol.
  destruct (collide (obstacles m2) m2 wl2) as [m3 wl3]. cbn [fst] in Hcol.
  destruct Hcol as [Hf Hover].
  destruct Hf as (Hw3 & Hh3 & Hr3 & Hc3 & Hd3 & Ht3 & Hdist3 & Hy3 & Hv3 & Ho3).
  exists extra. subst m2. cbn in *.
  rewrite Ho in *. rewrite Hc in Hspawned.
  assert (Hhits : forall obs,
            existsb (hits (set_frameDur m3 (accelerate (frameDur m3)))) obs
            = existsb (hits (set_obstacles m1
                 (filter on_screen (map scrolled (obstacles m)) ++ extra)))
                obs).
  { intros obs. induction obs as [| o r IH]; cbn [existsb]; [reflexivity |].
    rewrite IH. f_equal. apply hits_ext; cbn; congruence. }
  repeat split; try congruence.
  - unfold restY in *. cbn. rewrite Hy3, Hr3. exact Hy.
  - unfold tickAfter. congruence.
Qed.

Lemma accepted_tick_steps m wl :
  playing m -> Update m (tickMsg (tickGen m)) wl = step m wl.
Proof.
  intros (Hover & Hr & Hc). unfold Update.
  rewrite Z.eqb_refl, Hover. cbn.
  destruct (Z.eqb_spec (gameRows m) 0); [contradiction |].
  destruct (Z.eqb_spec (gameCols m) 0); [contradiction |]. reflexivity.
Qed.

(* ------------------------------------------------------------------------ *)
(** ** Collision *)
(* ------------------------------------------------------------------------ *)

(** Once the player cannot be below the rest height, the two kind-specific
    tests of the collision loop are one and the same test. *)
Lemma hits_iff m ob :
  playerY m <= restY m ->
  hits m ob = true <-> x ob = 2 /\ hazard ob /\ playerY m = restY m.
Proof.
  intros Hle. unfold hits, hazard.
  destruct (Z.eqb_spec (x ob) 2) as [Hx | Hx]; cbn [andb];
    [| split; [discriminate | tauto]].
  destruct (String.eqb_spec (typ ob) "hole") as [Hh | Hh]; cbn [andb orb negb].
  - rewrite orb_false_r. destruct (Z.leb_spec (restY m) (playerY m)).
    + split; [intros _ | reflexivity]. repeat split; [exact Hx | tauto | lia].
    + split; [discriminate | intros (_ & _ & E); lia].
  - destruct (String.eqb_spec (typ ob) "rock") as [Hr | Hr]; cbn [andb].
    + destruct (Z.eqb_spec (playerY m) (restY m)).
      * split; [intros _ | reflexivity]. repeat split; [exact Hx | tauto | lia].
      * split; [discriminate | tauto].
    + split; [discriminate | tauto].
Qed.

Lemma scrolled_kept obs ob :
  In ob obs -> -1 <= GoInt.sub (x ob) 1 ->
  In (scrolled ob) (filter on_screen (map scrolled obs)).
Proof.
  intros Hin Hx. apply filter_In. split; [now apply in_map |].
  unfold on_screen, scrolled; cbn. now apply Z.leb_le.
Qed.

(** C2. On an accepted tick of a running game (grid sized), the player is
    at or above the rest height once the physics has run, and the run ends
    exactly when the player is at rest height and a hole or a rock stands
    in column 2.  So an obstacle of either kind that the scroll brings to
    column 2 ends the run if and only if the player is at rest height at
    that tick, and never while the player is airborne; the rule does not
    distinguish the two kinds. *)
Theorem collision_iff_at_rest (m : model) (wl : World) :
  playing m ->
  let m' := next m (tickMsg (tickGen m)) wl in
  playerY m' <= restY m'
  /\ (gameOver m' = true <->
      playerY m' = restY m'
      /\ exists ob, In ob (obstacles m') /\ x ob = 2 /\ hazard ob)
  /\ (forall ob,
        In ob (obstacles m) -> GoInt.sub (x ob) 1 = 2 -> hazard ob ->
        In (mkObstacle 2 (typ ob)) (obstacles m')
        /\ (gameOver m' = true <-> playerY m' = restY m')
        /\ (playerY m' < restY m' -> gameOver m' = false)).
Proof.
  intros Hplay m'. subst m'. unfold next.
  rewrite (accepted_tick_steps m wl Hplay).
  destruct (step_spec m wl)
    as (extra & Hobs & _ & _ & _ & Hle & _ & _ & _ & _ & _ & Hover & _).
  destruct Hplay as (Hrun & _).
  set (m' := fst (fst (step m wl))) in *.
  rewrite Hrun in Hover. cbn [orb] in Hover.
  assert (Hchar : gameOver m' = true <->
                  playerY m' = restY m'
                  /\ exists ob, In ob (obstacles m') /\ x ob = 2 /\ hazard ob).
  { rewrite Hover, existsb_exists. split.
    - intros (ob & Hin & Hhit). apply (hits_iff m' ob Hle) in Hhit.
      destruct Hhit as (Hx & Hz & Hy). split; [exact Hy | now exists ob].
    - intros (Hy & ob & Hin & Hx & Hz). exists ob. split; [exact Hin |].
      now apply (hits_iff m' ob Hle). }
  split; [exact Hle | split; [exact Hchar |]].
  intros ob Hin Hx Hz.
  assert (Hin' : In (mkObstacle 2 (typ ob)) (obstacles m')).
  { rewrite Hobs. apply in_or_app. left. rewrite <- Hx.
    apply (scrolled_kept (obstacles m) ob Hin). lia. }
  split; [exact Hin' | split].
  - rewrite Hchar. split; [tauto |]. intros Hy. split; [exact Hy |].
    exists (mkObstacle 2 (typ ob)). repeat split; [exact Hin' | exact Hz].
  - intros Hlt. apply not_true_is_false. intros E.
    apply Hchar in E. lia.
Qed.

Lemma collision_iff_at_rest_witness :
  gameOver (next Scenario.hole_ahead (tickMsg 0) Scenario.quiet) = true
  /\ gameOver (next Scenario.hole_ahead_jumping (tickMsg 0) Scenario.quiet)
     = false.
Proof.
  split.
  - destruct (collision_iff_at_rest Scenario.hole_ahead Scenario.quiet)
      as (_ & _ & H).
    + repeat split; discriminate.
    + destruct (H (mkObstacle 3 "hole")) as (_ & Hiff & _).
      * left; reflexivity.
      * reflexivity.
      * left; reflexivity.
      * apply Hiff. vm_compute. reflexivity.
  - destruct (collision_iff_at_rest Scenario.hole_ahead_jumping Scenario.quiet)
      as (_ & _ & H).
    + repeat split; discriminate.
    + destruct (H (mkObstacle 3 "hole")) as (_ & _ & Hair).
      * left; reflexivity.
      * reflexivity.
      * left; reflexivity.
      * apply Hair. vm_compute. reflexivity.
Defined.

(* ------------------------------------------------------------------------ *)
(** ** The speed ramp *)
(* ------------------------------------------------------------------------ *)

(** Rounding to nearest moves a number up by at most half a unit. *)
Lemma rne_bound p s :
  0 <= p -> 0 < s ->
  0 <= Float64.rne p s /\ Float64.rne p s * 2 ^ s <= p + 2 ^ (s - 1).
Proof.
  intros Hp Hs. unfold Float64.rne.
  destruct (Z.leb_spec s 0); [lia |].
  assert (Hpow : 2 ^ s = 2 * 2 ^ (s - 1)).
  { replace s with (Z.succ (s - 1)) at 1 by lia. apply Z.pow_succ_r. lia. }
  assert (Hhalf : 0 < 2 ^ (s - 1)) by (apply Z.pow_pos_nonneg; lia).
  pose proof (Z.div_mod p (2 ^ s) ltac:(lia)) as Hdm.
  pose proof (Z.mod_pos_bound p (2 ^ s) ltac:(lia)) as Hm.
  assert (Hq : 0 <= p / 2 ^ s) by (apply Z.div_pos; lia).
  set (q := p / 2 ^ s) in *. set (r := p mod 2 ^ s) in *.
  set (hf := 2 ^ (s - 1)) in *. rewrite Hpow in *.
  destruct (Z.ltb_spec r hf); [nia |].
  destruct (Z.ltb_spec hf r); [nia |].
  destruct (Z.even q); nia.
Qed.

(** Rounding to 53 significant bits moves a number up by at most one part
    in [2^53]. *)
Lemma round53_bound p :
  0 <= p ->
  0 <= Float64.round53 p /\ 2 ^ 53 * Float64.round53 p <= (2 ^ 53 + 1) * p.
Proof.
  intros Hp. unfold Float64.round53.
  destruct (Z.ltb_spec p (2 ^ 53)) as [Hsmall | Hbig]; [lia |].
  assert (Hlog : 53 <= Z.log2 p).
  { rewrite <- (Z.log2_pow2 53) by lia. apply Z.log2_le_mono. exact Hbig. }
  set (s := Z.log2 p - 52).
  destruct (rne_bound p s Hp ltac:(lia)) as [Hr0 Hr].
  assert (Hs : 0 < 2 ^ s) by (apply Z.pow_pos_nonneg; lia).
  split; [nia |].
  assert (Hp2 : 2 ^ Z.log2 p <= p) by (apply Z.log2_spec; lia).
  assert (Hsplit : 2 ^ Z.log2 p = 2 ^ 53 * 2 ^ (s - 1)).
  { rewrite <- Z.pow_add_r by lia. f_equal. lia. }
  rewrite Hsplit in Hp2.
  set (u := Float64.rne p s * 2 ^ s) in *.
  set (hf := 2 ^ (s - 1)) in *. lia.
Qed.

Lemma accelerate_zero : accelerate 0 = 0.
Proof. reflexivity. Qed.

(** The ramp has no floor: a positive interval always gets strictly
    shorter, and never negative. *)
Lemma accelerate_shrinks d : 0 < d -> 0 <= accelerate d < d.
Proof.
  intros Hd. unfold accelerate, Float64.of_int.
  destruct (Z.ltb_spec d 0); [lia |].
  destruct (round53_bound d ltac:(lia)) as [HD0 HD].
  set (D := Float64.round53 d) in *.
  unfold Float64.mul_accel. destruct (Z.ltb_spec D 0); [lia |].
  assert (HM : 0 <= D * accelMant) by (unfold accelMant; lia).
  destruct (round53_bound (D * accelMant) HM) as [HR0 HR].
  set (R := Float64.round53 (D * accelMant)) in *.
  unfold Float64.to_int. rewrite Z.quot_div_nonneg by lia.
  split; [apply Z.div_pos; lia |].
  apply Z.div_lt_upper_bound; [lia |].
  unfold accelMant in *. lia.
Qed.

Lemma accelerate_le d : 0 <= d -> 0 <= accelerate d <= d.
Proof.
  intros Hd. destruct (Z.eq_dec d 0) as [-> | Hne].
  - rewrite accelerate_zero. lia.
  - pose proof (accelerate_shrinks d ltac:(lia)). lia.
Qed.

(** Outside the gameplay step only a restart writes the frame interval. *)
Lemma frameDur_kept m msg wl :
  (gameOver m = false \/ forall key, msg <> KeyMsg key) ->
  (forall gen, msg = tickMsg gen -> gen <> tickGen m \/ ~ playing m) ->
  frameDur (next m msg wl) = frameDur m.
Proof.
  intros Hmsg Htick. unfold next. destruct msg as [Width Height | key | gen |].
  - reflexivity.
  - unfold Update, bind, ret, time_Now.
    destruct (is_quit key); [reflexivity |].
    destruct (is_jump key); [| reflexivity].
    destruct Hmsg as [Hrun | Hkey]; [| now contradiction (Hkey key)].
    rewrite Hrun. destruct (playerY m =? restY m); reflexivity.
  - unfold Update, ret.
    destruct (Z.eqb_spec gen (tickGen m)) as [-> | _]; [| reflexivity].
    cbn [negb]. destruct (gameOver m) eqn:Hover; [reflexivity |].
    destruct (Z.eqb_spec (gameRows m) 0); [reflexivity |].
    destruct (Z.eqb_spec (gameCols m) 0); [reflexivity |].
    destruct (Htick (tickGen m) eq_refl) as [H | H]; [contradiction |].
    exfalso. apply H. repeat split; assumption.
  - reflexivity.
Qed.

(** C8. Within a run the frame interval never grows: whatever message
    arrives while the game runs, and whatever message other than a key
    arrives at all, the interval afterwards is at most the interval before.
    Only the gameplay step of an accepted tick writes it, replacing it by
    [accelerate], which makes every positive interval strictly shorter --
    there is no floor.  Stated for the intervals a run can have, the
    non-negative ones. *)
Theorem frame_interval_never_grows (m : model) (wl : World) :
  0 <= frameDur m ->
  (forall msg,
     gameOver m = false \/ (forall key, msg <> KeyMsg key) ->
     0 <= frameDur (next m msg wl) <= frameDur m)
  /\ (playing m ->
      let m' := next m (tickMsg (tickGen m)) wl in
      frameDur m' = accelerate (frameDur m)
      /\ (0 < frameDur m -> frameDur m' < frameDur m)).
Proof.
  intros Hd.
  assert (Hplay : playing m ->
                  frameDur (next m (tickMsg (tickGen m)) wl)
                  = accelerate (frameDur m)).
  { intros Hp. unfold next. rewrite (accepted_tick_steps m wl Hp).
    destruct (step_spec m wl) as (extra & H). tauto. }
  split.
  - intros msg Hmsg.
    destruct (gameOver m) eqn:Hover.
    + rewrite frameDur_kept; [lia | rewrite Hover; exact Hmsg |].
      intros gen _. right. intros (Hp & _). congruence.
    + destruct (Z.eq_dec (gameRows m) 0) as [Hr | Hr].
      { rewrite frameDur_kept; [lia | rewrite Hover; exact Hmsg |].
        intros gen _. right. intros (_ & Hp & _). contradiction. }
      destruct (Z.eq_dec (gameCols m) 0) as [Hc | Hc].
      { rewrite frameDur_kept; [lia | rewrite Hover; exact Hmsg |].
        intros gen _. right. intros (_ & _ & Hp). contradiction. }
      assert (Hp : playing m) by (repeat split; assumption).
      destruct msg as [Width Height | key | gen |];
        try (rewrite frameDur_kept;
             [lia | rewrite Hover; left; reflexivity | discriminate]).
      destruct (Z.eq_dec gen (tickGen m)) as [-> | Hgen].
      * rewrite (Hplay Hp). apply accelerate_le. exact Hd.
      * rewrite frameDur_kept; [lia | rewrite Hover; left; reflexivity |].
        intros g [= <-]. left. exact Hgen.
  - intros Hp m'. subst m'. split; [apply Hplay; exact Hp |].
    intros Hpos. rewrite (Hplay Hp). apply accelerate_shrinks. exact Hpos.
Qed.

Lemma frame_interval_never_grows_witness :
  0 <= frameDur Scenario.hole_ahead_jumping
  /\ frameDur (next Scenario.hole_ahead_jumping (tickMsg 0) Scenario.quiet)
     < frameDur Scenario.hole_ahead_jumping.
Proof.
  split; [discriminate |].
  destruct (frame_interval_never_grows Scenario.hole_ahead_jumping
              Scenario.quiet) as (_ & H).
  - discriminate.
  - destruct H as (_ & Hlt); [repeat split; discriminate |].
    apply Hlt. reflexivity.
Defined.

(* ------------------------------------------------------------------------ *)
(** ** The invariant of reachable states *)
(* ------------------------------------------------------------------------ *)

Lemma Inv_initial wl : Inv (fst (initialModel wl)).
Proof.
  unfold initialModel, bind, ret. destruct (loadHighScore wl) as [hs wl'].
  cbn. constructor; cbn.
  - unfold startFrame, Millisecond. lia.
  - left. repeat split.
  - constructor.
Qed.

Lemma div2_range a :
  GoInt.in_range a -> - 2 ^ 62 <= GoInt.div a 2 <= 2 ^ 62 - 1.
Proof.
  unfold GoInt.in_range, GoInt.min_int, GoInt.max_int, GoInt.div. intros Ha.
  assert (H : - 2 ^ 62 <= Z.quot a 2 <= 2 ^ 62 - 1)
    by (Z.quot_rem_to_equations; lia).
  rewrite wrap_id; [exact H |].
  unfold GoInt.in_range, GoInt.min_int, GoInt.max_int. lia.
Qed.

Lemma Inv_resize m Width Height wl :
  Inv m -> Inv (next m (WindowSizeMsg Width Height) wl).
Proof.
  intros [Hf Hg Ho]. unfold next, Update, ret, recalcSizes. cbn.
  constructor; cbn; [exact Hf | right | exact Ho].
  pose proof (wrap_in_range (GoInt.sub (GoInt.sub Height 1) 1 - 6)) as Hr.
  fold (GoInt.sub (GoInt.sub (GoInt.sub Height 1) 1) 6) in Hr.
  pose proof (div2_range (GoInt.sub Width 2) (wrap_in_range _)) as Hc.
  unfold GoInt.in_range, GoInt.min_int, GoInt.max_int in *.
  split.
  - destruct (Z.ltb_spec (GoInt.sub (GoInt.sub (GoInt.sub Height 1) 1) 6) 5);
      lia.
  - destruct (Z.ltb_spec (GoInt.div (GoInt.sub Width 2) 2) 10); lia.
Qed.

Lemma Inv_key m key wl : Inv m -> Inv (next m (KeyMsg key) wl).
Proof.
  intros [Hf Hg Ho]. unfold next, Update, bind, ret, time_Now.
  destruct (is_quit key); [constructor; assumption |].
  destruct (is_jump key); [| constructor; assumption].
  destruct (gameOver m).
  - destruct (restartAt m <? _); [| constructor; assumption].
    cbn. constructor; cbn.
    + unfold startFrame, Millisecond. lia.
    + destruct Hg as [(Hr & Hc & _) | Hg]; [left | right]; tauto.
    + constructor.
  - destruct (playerY m =? restY m); constructor; assumption.
Qed.

Lemma Inv_step m wl : Inv m -> playing m -> Inv (fst (fst (step m wl))).
Proof.
  intros [Hf Hg Ho] (_ & Hr & Hc).
  destruct (step_spec m wl)
    as (extra & Hobs & Hsp & _ & _ & _ & Hr' & Hc' & _ & _ & Hd & _).
  destruct Hg as [(Hr0 & _) | (Hrows & Hcols)]; [contradiction |].
  constructor.
  - rewrite Hd. pose proof (accelerate_le (frameDur m) ltac:(lia)). lia.
  - right. rewrite Hr', Hc'. tauto.
  - rewrite Hobs. apply Forall_app. split.
    + apply Forall_forall. intros ob Hin.
      apply filter_In in Hin. destruct Hin as [Hin Hon].
      apply in_map_iff in Hin. destruct Hin as (o & <- & Hin).
      rewrite Forall_forall in Ho. specialize (Ho o Hin).
      unfold on_screen, scrolled in *; cbn in *. apply Z.leb_le in Hon.
      rewrite sub_exact in *;
        unfold GoInt.in_range, GoInt.min_int, GoInt.max_int; lia.
    + destruct Hsp as [-> | (r & kind & -> & Hrr & _)]; constructor;
        [| constructor]. cbn.
      rewrite add_exact;
        unfold GoInt.in_range, GoInt.min_int, GoInt.max_int; lia.
Qed.

(** Every message keeps the invariant. *)
Lemma Inv_Update m msg wl : Inv m -> Inv (next m msg wl).
Proof.
  intros HI. destruct msg as [Width Height | key | gen |].
  - now apply Inv_resize.
  - now apply Inv_key.
  - unfold next, Update, ret.
    destruct (gen =? tickGen m); cbn [negb]; [| exact HI].
    destruct (gameOver m) eqn:Hover; [exact HI |].
    destruct (Z.eqb_spec (gameRows m) 0); [exact HI |].
    destruct (Z.eqb_spec (gameCols m) 0); [exact HI |].
    cbn [orb]. apply Inv_step; [exact HI | repeat split; assumption].
  - exact HI.
Qed.

(** In a reachable state obstacles exist only on a sized grid, so a
    running game with an obstacle in it is [playing]. *)
Lemma Inv_obstacles_sized m :
  Inv m -> gameOver m = false -> obstacles m <> [] -> playing m.
Proof.
  intros [_ Hg _] Hrun Hobs.
  destruct Hg as [(_ & _ & Hnil) | (Hr & Hc)]; [contradiction |].
  repeat split; [exact Hrun | lia | lia].
Qed.

Lemma Inv_deliver ms : forall m wl,
  Inv m -> Inv (fst (deliver ms m wl)).
Proof.
  induction ms as [| msg rest IH]; intros m wl HI; cbn; [exact HI |].
  unfold bind. pose proof (Inv_Update m msg wl HI) as H1. unfold next in H1.
  destruct (Update m msg wl) as [[m1 c] wl1]. cbn in *. now apply IH.
Qed.

(* ------------------------------------------------------------------------ *)
(** ** Scroll and spawn *)
(* ------------------------------------------------------------------------ *)

(** In a reachable state no obstacle position wraps when it is scrolled. *)
Lemma scrolled_exact obs :
  Forall (fun ob => -1 <= x ob <= 2 ^ 62 + 2) obs ->
  map scrolled obs = map (fun ob => mkObstacle (x ob - 1) (typ ob)) obs.
Proof.
  intros H. apply map_ext_in. intros ob Hin.
  rewrite Forall_forall in H. specialize (H ob Hin).
  unfold scrolled. rewrite sub_exact; [reflexivity |].
  unfold GoInt.in_range, GoInt.min_int, GoInt.max_int. lia.
Qed.

Lemma tick_moves_obstacle m wl p t :
  Inv m -> playing m -> In (mkObstacle p t) (obstacles m) -> 0 <= p ->
  In (mkObstacle (p - 1) t) (obstacles (next m (tickMsg (tickGen m)) wl)).
Proof.
  intros HI Hplay Hin Hp. unfold next.
  rewrite (accepted_tick_steps m wl Hplay).
  destruct (step_spec m wl) as (extra & Hobs & _). rewrite Hobs.
  apply in_or_app. left.
  rewrite (scrolled_exact _ (inv_obs m HI)).
  apply filter_In. split.
  - apply (in_map (fun ob => mkObstacle (x ob - 1) (typ ob)) _ _ Hin).
  - unfold on_screen; cbn. apply Z.leb_le. lia.
Qed.

Lemma tick_keeps_grid m wl :
  gameRows (next m (tickMsg (tickGen m)) wl) = gameRows m
  /\ gameCols (next m (tickMsg (tickGen m)) wl) = gameCols m.
Proof.
  unfold next, Update. rewrite Z.eqb_refl. cbn [negb].
  destruct (gameOver m); [split; reflexivity |].
  destruct (Z.eqb_spec (gameRows m) 0); [split; reflexivity |].
  destruct (Z.eqb_spec (gameCols m) 0); [split; reflexivity |].
  cbn [orb]. destruct (step_spec m wl) as (extra & H). tauto.
Qed.

Lemma obstacle_after_ticks n : forall m wl p t,
  Inv m -> gameRows m <> 0 -> gameCols m <> 0 ->
  In (mkObstacle p t) (obstacles m) ->
  Z.of_nat n <= p + 1 ->
  (forall j, (j < n)%nat -> gameOver (fst (run_ticks j m wl)) = false) ->
  In (mkObstacle (p - Z.of_nat n) t) (obstacles (fst (run_ticks n m wl))).
Proof.
  induction n as [| n IH]; intros m wl p t HI Hr Hc Hin Hn Hrun.
  - cbn. now rewrite Z.sub_0_r.
  - assert (Hplay : playing m).
    { repeat split; try assumption. apply (Hrun 0%nat). lia. }
    pose proof (tick_moves_obstacle m wl p t HI Hplay Hin ltac:(lia)) as Hin1.
    pose proof (Inv_Update m (tickMsg (tickGen m)) wl HI) as HI1.
    destruct (tick_keeps_grid m wl) as [Hr1 Hc1].
    assert (Hrun1 : forall j, (j < n)%nat ->
              gameOver (fst (run_ticks j (next m (tickMsg (tickGen m)) wl)
                               (world_of m (tickMsg (tickGen m)) wl))) = false).
    { intros j Hj. specialize (Hrun (S j) ltac:(lia)).
      cbn [run_ticks] in Hrun. unfold bind in Hrun. unfold next, world_of.
      destruct (Update m (tickMsg (tickGen m)) wl) as [r wl1]. exact Hrun. }
    specialize (IH (next m (tickMsg (tickGen m)) wl)
                  (world_of m (tickMsg (tickGen m)) wl) (p - 1) t HI1
                  ltac:(congruence) ltac:(congruence) Hin1 ltac:(lia) Hrun1).
    cbn [run_ticks]. unfold bind. unfold next, world_of in IH.
    destruct (Update m (tickMsg (tickGen m)) wl) as [r wl1]. cbn [fst snd] in IH.
    replace (p - Z.of_nat (S n)) with (p - 1 - Z.of_nat n) by lia. exact IH.
Qed.

(** C7. On an accepted tick of a running game in a reachable state, the
    obstacles afterwards are the old ones, each moved left by exactly 1,
    those at position -1 or more kept in order, followed by at most one
    new obstacle; a new one stands between [gameCols] and [gameCols + 3]
    and appears only if the largest surviving position (-1 if there is
    none) is below [gameCols - minGapCells - 1].  Hence, while the run
    lasts, an obstacle at position [p >= 2] is at [p - n] after [n <= p - 2]
    ticks: at column 2 after exactly [p - 2] ticks and to the right of it
    before. *)
Theorem scroll_and_spawn (m : model) (wl : World) :
  Inv m -> playing m ->
  let m' := next m (tickMsg (tickGen m)) wl in
  let kept :=
    filter (fun ob => -1 <=? x ob)
      (map (fun ob => mkObstacle (x ob - 1) (typ ob)) (obstacles m)) in
  (exists extra,
     obstacles m' = kept ++ extra
     /\ (extra = []
         \/ exists ob,
              extra = [ob]
              /\ gameCols m <= x ob <= gameCols m + 3
              /\ hazard ob
              /\ fold_right Z.max (-1) (map x kept)
                 < gameCols m - minGapCells - 1))
  /\ (forall p t n,
        In (mkObstacle p t) (obstacles m) -> 2 <= p ->
        Z.of_nat n <= p - 2 ->
        (forall j, (j < n)%nat -> gameOver (fst (run_ticks j m wl)) = false) ->
        In (mkObstacle (p - Z.of_nat n) t)
          (obstacles (fst (run_ticks n m wl)))
        /\ (Z.of_nat n = p - 2 ->
            In (mkObstacle 2 t) (obstacles (fst (run_ticks n m wl))))).
Proof.
  intros HI Hplay m' kept. subst m' kept. split.
  - unfold next. rewrite (accepted_tick_steps m wl Hplay).
    destruct (step_spec m wl) as (extra & Hobs & Hsp & _).
    rewrite (scrolled_exact _ (inv_obs m HI)) in Hobs, Hsp.
    exists extra. split; [exact Hobs |].
    destruct Hsp as [-> | (r & kind & -> & Hr & Hkind & Hgap)];
      [left; reflexivity | right].
    destruct HI as [_ Hg _]. destruct Hplay as (_ & Hrows & Hcols).
    destruct Hg as [(H0 & _) | (_ & Hc)]; [contradiction |].
    eexists. split; [reflexivity |]. cbn [x typ].
    rewrite add_exact
      by (unfold GoInt.in_range, GoInt.min_int, GoInt.max_int; lia).
    split; [lia | split; [exact Hkind |]].
    rewrite furthest_loop_spec in Hgap.
    unfold minGapCells in *.
    rewrite (sub_exact (gameCols m) 4) in Hgap
      by (unfold GoInt.in_range, GoInt.min_int, GoInt.max_int; lia).
    rewrite sub_exact in Hgap
      by (unfold GoInt.in_range, GoInt.min_int, GoInt.max_int; lia).
    exact Hgap.
  - intros p t n Hin Hp Hn Hrun.
    destruct Hplay as (_ & Hrows & Hcols).
    pose proof (obstacle_after_ticks n m wl p t HI Hrows Hcols Hin
                  ltac:(lia) Hrun) as H.
    split; [exact H |]. intros E. rewrite E in H.
    replace (p - (p - 2)) with 2 in H by lia. exact H.
Qed.

Lemma Inv_hole_ahead_jumping : Inv Scenario.hole_ahead_jumping.
Proof.
  constructor; cbn.
  - unfold startFrame, Millisecond. lia.
  - right. lia.
  - repeat constructor; cbn; lia.
Qed.

Lemma scroll_and_spawn_witness :
  In (mkObstacle 2 "rock")
    (obstacles (fst (run_ticks 10 Scenario.hole_ahead_jumping Scenario.quiet))).
Proof.
  destruct (scroll_and_spawn Scenario.hole_ahead_jumping Scenario.quiet
              Inv_hole_ahead_jumping) as (_ & H).
  - repeat split; discriminate.
  - destruct (H 12 "rock"%string 10%nat) as (_ & H2).
    + right; left; reflexivity.
    + lia.
    + cbn; lia.
    + intros j Hj.
      do 10 (destruct j as [| j]; [vm_compute; reflexivity |]). lia.
    + apply H2. reflexivity.
Defined.

(* ------------------------------------------------------------------------ *)
(** ** Decimal text *)
(* ------------------------------------------------------------------------ *)

Lemma digit_val_char d :
  0 <= d <= 9 -> Strconv.digit_val (Strconv.digit_char d) = Some d.
Proof. intros H. each_digit H; reflexivity. Qed.

Lemma digit_not_sign d :
  0 <= d <= 9 ->
  Ascii.eqb (Strconv.digit_char d) "-" = false
  /\ Ascii.eqb (Strconv.digit_char d) "+" = false.
Proof. intros H. each_digit H; split; reflexivity. Qed.

Lemma mod10_digit u : 0 <= u mod 10 <= 9.
Proof. pose proof (Z.mod_pos_bound u 10 ltac:(lia)). lia. Qed.

(** Parsing the digits of [u] in front of [acc] is parsing [acc] with [u]
    appended to the number read so far. *)
Lemma utoa_parse f : forall u acc,
  0 <= u < 10 ^ Z.of_nat (S f) ->
  exists k, 0 <= k /\ forall n,
    Strconv.parse_digits (Strconv.utoa (S f) u acc) n
    = Strconv.parse_digits acc (n * 10 ^ k + u).
Proof.
  induction f as [| f IH]; intros u acc Hu; cbn [Strconv.utoa].
  - change (10 ^ Z.of_nat 1) with 10 in Hu.
    destruct (Z.ltb_spec u 10); [| lia].
    exists 1. split; [lia |]. intros n. cbn [Strconv.parse_digits].
    rewrite digit_val_char by apply mod10_digit.
    rewrite Z.mod_small by lia. f_equal; lia.
  - destruct (Z.ltb_spec u 10) as [Hlt | Hge].
    + exists 1. split; [lia |]. intros n. cbn [Strconv.parse_digits].
      rewrite digit_val_char by apply mod10_digit.
      rewrite Z.mod_small by lia. f_equal; lia.
    + assert (Hq : 0 <= u / 10 < 10 ^ Z.of_nat (S f)).
      { split; [apply Z.div_pos; lia |].
        apply Z.div_lt_upper_bound; [lia |].
        replace (Z.of_nat (S (S f))) with (Z.succ (Z.of_nat (S f))) in Hu
          by lia.
        rewrite Z.pow_succ_r in Hu by lia. lia. }
      destruct (IH (u / 10) (Strconv.digit_char (u mod 10) :: acc) Hq)
        as (k & Hk & Hparse).
      exists (k + 1). split; [lia |]. intros n. rewrite Hparse.
      cbn [Strconv.parse_digits].
      rewrite digit_val_char by apply mod10_digit. f_equal.
      rewrite Z.pow_add_r by lia.
      pose proof (Z.div_mod u 10 ltac:(lia)). lia.
Qed.

(** The text of a number starts and ends with a digit. *)
Lemma utoa_head f : forall u acc,
  exists d rest, 0 <= d <= 9
    /\ Strconv.utoa (S f) u acc = Strconv.digit_char d :: rest.
Proof.
  induction f as [| f IH]; intros u acc; cbn [Strconv.utoa].
  - exists (u mod 10), acc. split; [apply mod10_digit |].
    destruct (u <? 10); reflexivity.
  - destruct (u <? 10).
    + exists (u mod 10), acc. split; [apply mod10_digit | reflexivity].
    + apply IH.
Qed.

Lemma utoa_acc f : forall u acc,
  Strconv.utoa f u acc = Strconv.utoa f u [] ++ acc.
Proof.
  induction f as [| f IH]; intros u acc; cbn [Strconv.utoa]; [reflexivity |].
  destruct (u <? 10); [reflexivity |].
  rewrite (IH _ (_ :: acc)), (IH _ [_]), <- app_assoc. reflexivity.
Qed.

Lemma utoa_last f u :
  exists front,
    Strconv.utoa (S f) u [] = front ++ [Strconv.digit_char (u mod 10)].
Proof.
  cbn [Strconv.utoa]. destruct (u <? 10).
  - exists []. reflexivity.
  - rewrite utoa_acc. eexists. reflexivity.
Qed.

(** [Atoi] reads back what [Itoa] writes, for every [int]. *)
Lemma Atoi_Itoa N : GoInt.in_range N -> Strconv.Atoi (Strconv.Itoa N) = Some N.
Proof.
  intros HN. assert (HN' := HN).
  unfold GoInt.in_range, GoInt.min_int, GoInt.max_int in HN'.
  assert (Hb : Strconv.in_rangeb N = true).
  { unfold Strconv.in_rangeb, GoInt.min_int, GoInt.max_int.
    apply andb_true_intro. split; apply Z.leb_le; lia. }
  assert (H20 : 10 ^ Z.of_nat 20 = 100000000000000000000) by reflexivity.
  unfold Strconv.Itoa. destruct (Z.ltb_spec N 0) as [Hneg | Hpos].
  - unfold Strconv.Atoi.
    change (Ascii.eqb "-" "-") with true. cbv iota beta.
    destruct (utoa_head 19 (- N) []) as (d & rest & Hd & Hshape).
    assert (Hu : 0 <= - N < 10 ^ Z.of_nat 20) by (rewrite H20; lia).
    destruct (utoa_parse 19 (- N) [] Hu) as (k & Hk & Hparse).
    rewrite Hshape in *. rewrite Hparse. cbn [Strconv.parse_digits].
    replace (- (0 * 10 ^ k + - N)) with N by lia. now rewrite Hb.
  - destruct (utoa_head 19 N []) as (d & rest & Hd & Hshape).
    assert (Hu : 0 <= N < 10 ^ Z.of_nat 20) by (rewrite H20; lia).
    destruct (utoa_parse 19 N [] Hu) as (k & Hk & Hparse).
    rewrite Hshape in *. unfold Strconv.Atoi.
    destruct (digit_not_sign d Hd) as [-> ->].
    rewrite Hparse. cbn [Strconv.parse_digits].
    replace (0 * 10 ^ k + N) with N by lia. now rewrite Hb.
Qed.

(* ------------------------------------------------------------------------ *)
(** ** White space *)
(* ------------------------------------------------------------------------ *)

Lemma Run_concat ps a : Strings.Run ps a -> forall b,
  Strings.Run ps b -> Strings.Run ps (a ++ b).
Proof.
  induction 1 as [| e s He Hs IH]; intros b Hb; [exact Hb |].
  rewrite <- app_assoc. constructor; [exact He | now apply IH].
Qed.

Lemma Run_rev ps ws :
  Strings.Run ps ws -> Strings.Run (map (@rev ascii) ps) (rev ws).
Proof.
  induction 1 as [| e s He Hs IH]; [constructor |].
  rewrite rev_app_distr. apply Run_concat; [exact IH |].
  rewrite <- (app_nil_r (rev e)). constructor; [| constructor].
  now apply in_map.
Qed.

(** Leading members of [ps] are all removed, given fuel for each. *)
Lemma trim_run ps :
  (forall e r, In e ps -> Strings.strip_any ps (e ++ r) = Some r) ->
  (forall e, In e ps -> e <> []) ->
  forall ws, Strings.Run ps ws -> forall s n,
    Strings.strip_any ps s = None -> (List.length ws <= n)%nat ->
    Strings.trim_left_n ps n (ws ++ s) = s.
Proof.
  intros Hstrip Hne ws Hrun. induction Hrun as [| e ws He Hws IH];
    intros s n Hs Hn.
  - cbn [app]. destruct n; cbn [Strings.trim_left_n]; [reflexivity |].
    now rewrite Hs.
  - rewrite length_app in Hn.
    assert (0 < List.length e)%nat.
    { specialize (Hne e He). destruct e; [contradiction | cbn; lia]. }
    destruct n as [| n]; [lia |]. cbn [Strings.trim_left_n].
    rewrite <- app_assoc, (Hstrip e (ws ++ s) He).
    apply IH; [exact Hs | lia].
Qed.

Lemma space_strip e r :
  In e Strings.space_encodings ->
  Strings.strip_any Strings.space_encodings (e ++ r) = Some r.
Proof.
  intros H. cbn in H.
  repeat (destruct H as [<- | H]; [reflexivity |]). contradiction.
Qed.

Lemma space_strip_rev e r :
  In e (map (@rev ascii) Strings.space_encodings) ->
  Strings.strip_any (map (@rev ascii) Strings.space_encodings) (e ++ r)
  = Some r.
Proof.
  intros H. cbn in H.
  repeat (destruct H as [<- | H]; [reflexivity |]). contradiction.
Qed.

Lemma space_nonempty e : In e Strings.space_encodings -> e <> [].
Proof.
  intros H. cbn in H.
  repeat (destruct H as [<- | H]; [discriminate |]). contradiction.
Qed.

Lemma space_nonempty_rev e :
  In e (map (@rev ascii) Strings.space_encodings) -> e <> [].
Proof.
  intros H. cbn in H.
  repeat (destruct H as [<- | H]; [discriminate |]). contradiction.
Qed.

(** No white space starts, or read backwards starts, with a digit or a
    minus sign. *)
Lemma digit_solid d r :
  0 <= d <= 9 ->
  Strings.strip_any Strings.space_encodings (Strconv.digit_char d :: r) = None
  /\ Strings.strip_any (map (@rev ascii) Strings.space_encodings)
       (Strconv.digit_char d :: r) = None.
Proof. intros H. each_digit H; split; reflexivity. Qed.

Lemma minus_solid r :
  Strings.strip_any Strings.space_encodings ("-"%char :: r) = None.
Proof. reflexivity. Qed.

Lemma Itoa_head_solid N : exists c rest,
  Strconv.Itoa N = c :: rest
  /\ forall r, Strings.strip_any Strings.space_encodings (c :: r) = None.
Proof.
  unfold Strconv.Itoa. destruct (N <? 0).
  - exists "-"%char, (Strconv.utoa 20 (- N) []).
    split; [reflexivity | exact minus_solid].
  - destruct (utoa_head 19 N []) as (d & rest & Hd & Hshape).
    exists (Strconv.digit_char d), rest. split; [exact Hshape |].
    intros r. exact (proj1 (digit_solid d r Hd)).
Qed.

Lemma Itoa_last_solid N : exists c front,
  Strconv.Itoa N = front ++ [c]
  /\ forall r,
       Strings.strip_any (map (@rev ascii) Strings.space_encodings) (c :: r)
       = None.
Proof.
  unfold Strconv.Itoa. destruct (N <? 0).
  - destruct (utoa_last 19 (- N)) as (front & Hshape).
    exists (Strconv.digit_char (- N mod 10)), ("-"%char :: front).
    split; [rewrite Hshape; reflexivity |].
    intros r. exact (proj2 (digit_solid _ r (mod10_digit (- N)))).
  - destruct (utoa_last 19 N) as (front & Hshape).
    exists (Strconv.digit_char (N mod 10)), front.
    split; [exact Hshape |].
    intros r. exact (proj2 (digit_solid _ r (mod10_digit N))).
Qed.

(** [TrimSpace] strips the white space around the text of a number. *)
Lemma TrimSpace_padded N ws1 ws2 :
  Strings.Spaces ws1 -> Strings.Spaces ws2 ->
  Strings.TrimSpace (ws1 ++ Strconv.Itoa N ++ ws2) = Strconv.Itoa N.
Proof.
  intros H1 H2. unfold Strings.TrimSpace, Strings.TrimLeftSpace.
  destruct (Itoa_head_solid N) as (c & rest & Hhead & Hsolid).
  destruct (Itoa_last_solid N) as (c' & front & Hlast & Hsolid').
  rewrite (trim_run _ space_strip space_nonempty ws1 H1).
  - unfold Strings.TrimRightSpace. rewrite rev_app_distr.
    rewrite (trim_run _ space_strip_rev space_nonempty_rev (rev ws2)
               (Run_rev _ _ H2)).
    + apply rev_involutive.
    + rewrite Hlast, rev_app_distr. cbn [rev app]. apply Hsolid'.
    + rewrite length_rev, length_app. lia.
  - rewrite Hhead. cbn [app]. apply Hsolid.
  - rewrite length_app. lia.
Qed.

Lemma TrimSpace_Itoa N : Strings.TrimSpace (Strconv.Itoa N) = Strconv.Itoa N.
Proof.
  pose proof (TrimSpace_padded N [] [] (Strings.Run_nil _) (Strings.Run_nil _))
    as H.
  cbn [app] in H. now rewrite app_nil_r in H.
Qed.

(* ------------------------------------------------------------------------ *)
(** ** The high-score file *)
(* ------------------------------------------------------------------------ *)

(** What [loadHighScore] answers, from the content of the file. *)
Lemma loadHighScore_spec wl :
  fst (loadHighScore wl)
  = match files wl (score_path wl) with
    | None => 0
    | Some bs =>
        match Strconv.Atoi (Strings.TrimSpace bs) with
        | None => 0
        | Some s => if s <? 0 then 0 else s
        end
    end.
Proof.
  unfold loadHighScore, score_path, scoreFilePath, bind, os_Getwd,
    os_ReadFile, ret.
  destruct (cwd wl); cbn [fst];
    (destruct (files wl _); [| reflexivity]);
    (destruct (Strconv.Atoi _) as [v |]; [| reflexivity]);
    destruct (v <? 0); reflexivity.
Qed.

(** A write that succeeds leaves the text of the score in the file. *)
Lemma saveHighScore_spec N wl :
  writable wl (score_path wl) = true ->
  score_path (snd (saveHighScore N wl)) = score_path wl
  /\ files (snd (saveHighScore N wl)) (score_path wl) = Some (Strconv.Itoa N).
Proof.
  unfold saveHighScore, score_path, scoreFilePath, bind, os_Getwd,
    os_WriteFile, ret.
  destruct (cwd wl) eqn:Hcwd; cbn [fst]; intros ->; cbn; rewrite ?Hcwd;
    cbn; rewrite ?String.eqb_refl; split; reflexivity.
Qed.

(** C9. Saving a high score [N >= 0] and loading it again yields [N],
    provided the write succeeds.  Loading yields 0 when the file cannot be
    read, when its trimmed content is not a number, and when the number is
    negative.  White space around the number is trimmed before parsing. *)
Theorem high_score_round_trip :
  (forall N wl,
     0 <= N <= GoInt.max_int ->
     writable wl (score_path wl) = true ->
     fst (loadHighScore (snd (saveHighScore N wl))) = N)
  /\ (forall wl,
        files wl (score_path wl) = None -> fst (loadHighScore wl) = 0)
  /\ (forall wl bs,
        files wl (score_path wl) = Some bs ->
        Strconv.Atoi (Strings.TrimSpace bs) = None ->
        fst (loadHighScore wl) = 0)
  /\ (forall wl bs n,
        files wl (score_path wl) = Some bs ->
        Strconv.Atoi (Strings.TrimSpace bs) = Some n -> n < 0 ->
        fst (loadHighScore wl) = 0)
  /\ (forall wl N ws1 ws2,
        GoInt.in_range N ->
        Strings.Spaces ws1 -> Strings.Spaces ws2 ->
        files wl (score_path wl) = Some (ws1 ++ Strconv.Itoa N ++ ws2) ->
        fst (loadHighScore wl) = if N <? 0 then 0 else N).
Proof.
  repeat split.
  - intros N wl HN Hw.
    destruct (saveHighScore_spec N wl Hw) as [Hpath Hfile].
    rewrite loadHighScore_spec, Hpath, Hfile, TrimSpace_Itoa, Atoi_Itoa.
    + destruct (Z.ltb_spec N 0); [lia | reflexivity].
    + unfold GoInt.in_range, GoInt.min_int, GoInt.max_int in *. lia.
  - intros wl H. now rewrite loadHighScore_spec, H.
  - intros wl bs H Hbad. now rewrite loadHighScore_spec, H, Hbad.
  - intros wl bs n H Hn Hneg. rewrite loadHighScore_spec, H, Hn.
    destruct (Z.ltb_spec n 0); [reflexivity | lia].
  - intros wl N ws1 ws2 HN H1 H2 H.
    rewrite loadHighScore_spec, H, TrimSpace_padded, Atoi_Itoa by assumption.
    reflexivity.
Qed.

Lemma high_score_round_trip_witness :
  fst (loadHighScore (snd (saveHighScore 128 Scenario.quiet))) = 128
  /\ fst (loadHighScore Scenario.quiet) = 0.
Proof.
  destruct high_score_round_trip as (Hrt & Hmiss & _).
  split.
  - apply Hrt; [split; [lia | discriminate] | reflexivity].
  - apply Hmiss. reflexivity.
Defined.

(** The file as an editor may leave it, and files that are no score. *)
Example load_padded :
  fst (loadHighScore (Scenario.with_score "  314
")) = 314.
Proof. vm_compute. reflexivity. Qed.

Example load_garbage : fst (loadHighScore (Scenario.with_score "3x14")) = 0.
Proof. vm_compute. reflexivity. Qed.

Example load_negative : fst (loadHighScore (Scenario.with_score "-7")) = 0.
Proof. vm_compute. reflexivity. Qed.

Example load_too_big :
  fst (loadHighScore (Scenario.with_score "9223372036854775808")) = 0.
Proof. vm_compute. reflexivity. Qed.

Example load_empty : fst (loadHighScore (Scenario.with_score "")) = 0.
Proof. vm_compute. reflexivity. Qed.

(* ------------------------------------------------------------------------ *)
(** ** Further properties: the stored high score *)
(* ------------------------------------------------------------------------ *)

Lemma Atoi_in_range s v : Strconv.Atoi s = Some v -> GoInt.in_range v.
Proof.
  unfold Strconv.Atoi.
  destruct (match s with
            | [] => (false, s)
            | c :: r =>
                if Ascii.eqb c "-" then (true, r)
                else if Ascii.eqb c "+" then (false, r) else (false, s)
            end) as [neg body].
  destruct body as [| c r]; [discriminate |].
  destruct (Strconv.parse_digits (c :: r) 0) as [n |]; [| discriminate].
  cbv zeta. destruct (Strconv.in_rangeb _) eqn:Hb; [| discriminate].
  intros [= <-]. unfold Strconv.in_rangeb in Hb.
  apply andb_prop in Hb. destruct Hb as [H1 H2].
  apply Z.leb_le in H1, H2. split; assumption.
Qed.

Lemma loadHighScore_range wl : 0 <= fst (loadHighScore wl) <= GoInt.max_int.
Proof.
  rewrite loadHighScore_spec.
  assert (Hmax : 0 <= GoInt.max_int) by (unfold GoInt.max_int; lia).
  destruct (files wl (score_path wl)) as [bs |]; [| lia].
  destruct (Strconv.Atoi (Strings.TrimSpace bs)) as [v |] eqn:Hv; [| lia].
  apply Atoi_in_range in Hv. destruct Hv as [_ Hv].
  destruct (Z.ltb_spec v 0); lia.
Qed.

(** X1. Whatever the score file holds, and whether it can be read or not,
    [loadHighScore] answers a score between 0 and the largest [int]. *)
Theorem loadHighScore_bounds (wl : World) :
  0 <= fst (loadHighScore wl) <= GoInt.max_int.
Proof. apply loadHighScore_range. Qed.

(* ------------------------------------------------------------------------ *)
(** ** Further properties: commands and generations *)
(* ------------------------------------------------------------------------ *)

Lemma add_one_neq g : GoInt.add g 1 <> g.
Proof.
  unfold GoInt.add. intros E.
  pose proof (wrap_in_range (g + 1)) as Hr. rewrite E in Hr.
  rewrite wrap_id in E.
  - lia.
  - unfold GoInt.in_range, GoInt.min_int, GoInt.max_int in *.
    destruct (Z.eq_dec g (2 ^ 63 - 1)) as [-> | Hne]; [| lia].
    exfalso. vm_compute in E. discriminate.
Qed.

Lemma accepted_tick_cmd m wl :
  exists d,
    cmd_of m (tickMsg (tickGen m)) wl
    = Some (Tick d (tickGen (next m (tickMsg (tickGen m)) wl)))
    /\ tickGen (next m (tickMsg (tickGen m)) wl) = tickGen m
    /\ d = (if gameOver m then gameOverTick
            else frameDur (next m (tickMsg (tickGen m)) wl)).
Proof.
  unfold cmd_of, next, Update. rewrite Z.eqb_refl. cbn [negb].
  destruct (gameOver m) eqn:Hover;
    [eexists; repeat split; reflexivity |].
  destruct (Z.eqb_spec (gameRows m) 0);
    [eexists; repeat split; reflexivity |].
  destruct (Z.eqb_spec (gameCols m) 0);
    [eexists; repeat split; reflexivity |].
  cbn [orb].
  destruct (step_spec m wl)
    as (extra & _ & _ & _ & _ & _ & _ & _ & Ht & _ & _ & _ & Hc).
  eexists. rewrite Hc, Ht. repeat split; try reflexivity; exact Ht.
Qed.

(** X2. [Update] hands back [tea.Quit] exactly for the keys "q" and
    "ctrl+c", and a tick command exactly when it consumed a tick of the
    current generation or accepted a restart; every other message yields
    no command.  A tick command always carries the generation of the model
    handed back with it, so each run has one chain of live ticks. *)
Theorem commands_classified (m : model) (msg : Msg) (wl : World) :
  (cmd_of m msg wl = Some Quit <->
   exists key, msg = KeyMsg key /\ is_quit key = true)
  /\ ((exists d g, cmd_of m msg wl = Some (Tick d g)) <->
      accepted_tick m msg \/ accepted_restart m msg wl)
  /\ (forall d g, cmd_of m msg wl = Some (Tick d g) ->
        g = tickGen (next m msg wl)).
Proof.
  destruct msg as [Width Height | key | gen |].
  - unfold cmd_of, accepted_tick, accepted_restart; cbn.
    repeat split; try discriminate.
    + intros (key & H & _). discriminate.
    + intros (d & g & H). discriminate.
    + intros [H | (key & H & _)]; discriminate.
  - unfold accepted_tick, accepted_restart, cmd_of, next, Update, bind, ret,
      time_Now, now_of.
    destruct (is_quit key) eqn:Hq.
    { cbn. repeat split; try discriminate.
      - intros _. exists key. split; [reflexivity | exact Hq].
      - intros (d & g & H). discriminate.
      - intros [H | (k & [= <-] & Hq' & _)]; [discriminate | congruence]. }
    destruct (is_jump key) eqn:Hj.
    2:{ cbn. repeat split; try discriminate.
        - intros (k & [= <-] & Hq'). congruence.
        - intros (d & g & H). discriminate.
        - intros [H | (k & [= <-] & _ & Hj' & _)];
            [discriminate | congruence]. }
    destruct (gameOver m) eqn:Hover.
    + destruct (Z.ltb_spec (restartAt m) (clock wl (clock_reads wl))).
      * cbn. repeat split; try discriminate.
        -- intros (k & [= <-] & Hq'). congruence.
        -- intros _. right. exists key. repeat split; assumption.
        -- intros _. eexists. eexists. reflexivity.
        -- intros d g [= _ <-]. reflexivity.
      * cbn. repeat split; try discriminate.
        -- intros (k & [= <-] & Hq'). congruence.
        -- intros (d & g & H'). discriminate.
        -- intros [H' | (k & [= <-] & _ & _ & _ & Hlt)];
             [discriminate | lia].
    + destruct (playerY m =? restY m); cbn; repeat split; try discriminate.
      all: try (intros (k & [= <-] & Hq'); congruence).
      all: try (intros (d & g & H'); discriminate).
      all: intros [H' | (k & [= <-] & _ & _ & Ho & _)];
        [discriminate | congruence].
  - destruct (Z.eq_dec gen (tickGen m)) as [-> | Hne].
    + destruct (accepted_tick_cmd m wl) as (d & Hc & Ht & _).
      rewrite Hc. repeat split; try discriminate.
      * intros (k & H & _). discriminate.
      * intros _. left. reflexivity.
      * intros _. eexists. eexists. reflexivity.
      * intros d' g [= _ <-]. reflexivity.
    + unfold cmd_of, accepted_tick, accepted_restart, Update.
      destruct (Z.eqb_spec gen (tickGen m)); [contradiction |]. cbn.
      repeat split; try discriminate.
      * intros (k & H & _). discriminate.
      * intros (d & g & H). discriminate.
      * intros [[= H] | (k & H & _)]; [contradiction | discriminate].
  - unfold cmd_of, accepted_tick, accepted_restart; cbn.
    repeat split; try discriminate.
    + intros (key & H & _). discriminate.
    + intros (d & g & H). discriminate.
    + intros [H | (key & H & _)]; discriminate.
Qed.

(** X3. After an accepted restart the tick still pending from the finished
    run is stale: delivered to the restarted model it is dropped, while the
    tick the restart scheduled is the one of the new generation. *)
Theorem old_tick_stale_after_restart (m : model) (key : string) (wl wl' : World) :
  gameOver m = true ->
  key = " "%string \/ key = "w"%string ->
  restartAt m < now_of wl ->
  let m' := next m (KeyMsg key) wl in
  Update m' (tickMsg (tickGen m)) wl' = (m', None, wl')
  /\ cmd_of m (KeyMsg key) wl = Some (Tick startFrame (tickGen m'))
  /\ tickGen m' <> tickGen m.
Proof.
  intros Hover Hkey Hnow m'. subst m'.
  destruct (jump_after_cooldown m key wl Hover Hkey Hnow) as [Hm Hc].
  rewrite Hm, Hc. cbn [restart fst snd tickGen].
  pose proof (add_one_neq (tickGen m)) as Hne.
  repeat split; [| exact Hne].
  unfold Update. cbn [tickGen].
  destruct (Z.eqb_spec (tickGen m) (GoInt.add (tickGen m) 1)) as [E | _];
    [symmetry in E; contradiction | reflexivity].
Qed.

Lemma old_tick_stale_after_restart_witness :
  Update (next Scenario.finished (KeyMsg " ") Scenario.later) (tickMsg 3)
    Scenario.quiet
  = (next Scenario.finished (KeyMsg " ") Scenario.later, None, Scenario.quiet).
Proof.
  exact (proj1 (old_tick_stale_after_restart Scenario.finished " "
                  Scenario.later Scenario.quiet eq_refl (or_introl eq_refl)
                  eq_refl)).
Defined.

(* ------------------------------------------------------------------------ *)
(** ** Further properties: the gameplay step, in more detail *)
(* ------------------------------------------------------------------------ *)

Lemma collide1_quiet ob m wl : hits m ob = false -> collide1 ob m wl = (m, wl).
Proof.
  unfold hits, collide1, ret.
  destruct (x ob =? 2); [| reflexivity]. cbn [andb].
  destruct (String.eqb (typ ob) "hole"); cbn [andb orb negb].
  - rewrite orb_false_r. now intros ->.
  - destruct (String.eqb (typ ob) "rock"); [| reflexivity].
    cbn [andb]. now intros ->.
Qed.

Lemma collide1_hit ob m wl :
  hits m ob = true -> collide1 ob m wl = setGameOver m wl.
Proof.
  unfold hits, collide1, ret.
  destruct (x ob =? 2); [| discriminate]. cbn [andb].
  destruct (String.eqb (typ ob) "hole"); cbn [andb orb negb].
  - rewrite orb_false_r. now intros ->.
  - destruct (String.eqb (typ ob) "rock"); [| discriminate].
    cbn [andb]. now intros ->.
Qed.

Lemma collide_quiet obs : forall m wl,
  existsb (hits m) obs = false -> collide obs m wl = (m, wl).
Proof.
  induction obs as [| ob rest IH]; intros m wl H; [reflexivity |].
  cbn in H. apply orb_false_elim in H. destruct H as [H1 H2].
  cbn [collide]. unfold bind. rewrite (collide1_quiet ob m wl H1).
  now apply IH.
Qed.

Lemma collide_score obs : forall m wl,
  highScore (fst (collide obs m wl))
  = if existsb (hits m) obs then Z.max (highScore m) (dist m)
    else highScore m.
Proof.
  induction obs as [| ob rest IH]; intros m wl; [reflexivity |].
  cbn [collide existsb]. unfold bind.
  destruct (hits m ob) eqn:Hhit.
  - rewrite (collide1_hit ob m wl Hhit). cbn [orb].
    pose proof (setGameOver_spec m wl) as Hs. cbv zeta in Hs.
    destruct (setGameOver m wl) as [m1 wl1]. cbn [fst] in Hs.
    destruct Hs as (Hf & _ & _ & Hhs). rewrite IH.
    destruct Hf as (_ & _ & _ & _ & _ & _ & Hd & _).
    rewrite Hhs, Hd. destruct (existsb (hits m1) rest); lia.
  - rewrite (collide1_quiet ob m wl Hhit). cbn [orb]. apply IH.
Qed.

(** The random source reads neither the clock nor the disk. *)
Lemma spawn_world m wl :
  same_disk wl (snd (spawn m wl))
  /\ clock (snd (spawn m wl)) = clock wl
  /\ clock_reads (snd (spawn m wl)) = clock_reads wl.
Proof.
  unfold spawn, bind, ret, rng_Float64, rng_Intn, next_raw, same_disk.
  destruct (_ <? _); [| repeat split]. cbn.
  destruct (Qltb _ spawnChance); cbn; repeat split.
Qed.

Lemma set_obstacles_twice m a b :
  set_obstacles (set_obstacles m a) b = set_obstacles m b.
Proof. reflexivity. Qed.

(** The gameplay step as: physics, scroll, spawn, then the collision loop
    on the model [m2] and the world [wl2] the spawn leaves. *)
Lemma step_unfold m wl :
  exists extra wl2,
    let kept := filter on_screen (map scrolled (obstacles m)) in
    let m2 := set_obstacles (physics m) (kept ++ extra) in
    spawned (gameCols m) kept extra
    /\ same_disk wl wl2
    /\ clock wl2 = clock wl /\ clock_reads wl2 = clock_reads wl
    /\ step m wl
       = (set_frameDur (fst (collide (obstacles m2) m2 wl2))
            (accelerate (frameDur m)),
          Some (tickAfter (accelerate (frameDur m)) (tickGen m)),
          snd (collide (obstacles m2) m2 wl2)).
Proof.
  unfold step, bind, ret. rewrite shift_loop_spec. cbn [app].
  destruct (physics_spec m) as (_ & _ & Hc & Ho & _ & Hd & Ht & _).
  set (p := physics m) in *.
  set (m1 := set_obstacles p _).
  destruct (spawn_spec m1 wl) as (extra & Hsp & Hspawned).
  destruct (spawn_world m1 wl) as (Hdisk & Hclock & Hreads).
  destruct (spawn m1 wl) as [m2 wl2]. cbn [fst snd] in *.
  exists extra, wl2. cbv zeta. subst m2. subst m1. cbn in *.
  rewrite Ho, Hc in *.
  split; [exact Hspawned |]. split; [exact Hdisk |].
  split; [exact Hclock |]. split; [exact Hreads |].
  rewrite set_obstacles_twice.
  match goal with
  | |- context [collide ?o ?mm ?ww] =>
      pose proof (collide_spec o mm ww) as Hcol; cbv zeta in Hcol;
      destruct (collide o mm ww) as [m3 wl3]
  end.
  cbn [fst snd] in *.
  destruct Hcol as ((_ & _ & _ & _ & Hd3 & Ht3 & _) & _).
  cbn in Hd3, Ht3. rewrite Hd3, Ht3, Hd, Ht. reflexivity.
Qed.

(** The high score after the gameplay step. *)
Lemma step_score m wl :
  gameOver m = false ->
  let m' := fst (fst (step m wl)) in
  highScore m'
  = if gameOver m' then Z.max (highScore m) (dist m') else highScore m.
Proof.
  intros Hrun m'. subst m'.
  destruct (step_spec m wl)
    as (extra' & _ & _ & _ & _ & _ & _ & _ & _ & Hdist & _ & _ & _).
  rewrite Hdist.
  destruct (step_unfold m wl) as (extra & wl2 & _ & _ & _ & _ & Hstep).
  cbv zeta in Hstep. rewrite Hstep. cbn [fst]. clear Hstep.
  set (m2 := set_obstacles (physics m) _).
  pose proof (collide_spec (obstacles m2) m2 wl2) as [_ Hover].
  pose proof (collide_score (obstacles m2) m2 wl2) as Hscore.
  destruct (physics_spec m) as (_ & _ & _ & _ & Hg & _ & _ & Hd).
  cbn [set_frameDur gameOver highScore].
  rewrite Hover, Hscore. subst m2. cbn [set_obstacles gameOver highScore dist].
  rewrite Hg, Hrun, Hd. cbn [orb].
  assert (Hhs : highScore (physics m) = highScore m).
  { unfold physics. destruct (_ <=? _); reflexivity. }
  rewrite Hhs. reflexivity.
Qed.

(* ------------------------------------------------------------------------ *)
(** ** Further properties: spacing of the obstacles *)
(* ------------------------------------------------------------------------ *)

Lemma spaced_shift obs :
  spaced obs ->
  spaced (filter (fun ob => -1 <=? x ob)
            (map (fun ob => mkObstacle (x ob - 1) (typ ob)) obs)).
Proof.
  unfold spaced. induction 1 as [| a l Hl IH Ha]; cbn; [constructor |].
  destruct (-1 <=? x a - 1); [| exact IH].
  constructor; [exact IH |].
  apply Forall_forall. intros o Hin. apply filter_In in Hin.
  destruct Hin as [Hin _]. apply in_map_iff in Hin.
  destruct Hin as (o' & <- & Hin').
  rewrite Forall_forall in Ha. specialize (Ha o' Hin').
  unfold apart in *. cbn. lia.
Qed.

Lemma spaced_snoc obs n :
  spaced obs -> Forall (fun o => apart o n) obs -> spaced (obs ++ [n]).
Proof.
  unfold spaced. induction 1 as [| a l Hl IH Ha]; intros Hn; cbn.
  - constructor; constructor.
  - inversion Hn as [| ? ? Han Hln]; subst.
    constructor; [now apply IH |].
    apply Forall_app. split; [exact Ha | constructor; [exact Han | constructor]].
Qed.

(** In a spaced list at most one obstacle stands in a given column. *)
Lemma spaced_column obs c :
  spaced obs ->
  forall a b l1 l2 l3, obs = l1 ++ a :: l2 ++ b :: l3 ->
  x a = c -> x b = c -> False.
Proof.
  unfold spaced. intros Hs a b l1 l2 l3 -> Ha Hb.
  assert (Hs' : StronglySorted apart (a :: l2 ++ b :: l3)).
  { clear Ha Hb. induction l1 as [| o l1 IH]; [exact Hs |].
    cbn in Hs. inversion Hs; subst. now apply IH. }
  inversion Hs' as [| ? ? _ Hall]; subst.
  rewrite Forall_forall in Hall.
  specialize (Hall b ltac:(apply in_or_app; right; left; reflexivity)).
  unfold apart, minGapCells in Hall. lia.
Qed.

(* ------------------------------------------------------------------------ *)
(** ** Further properties: what every reachable state satisfies *)
(* ------------------------------------------------------------------------ *)

Lemma Safe_initial wl : Safe (fst (initialModel wl)).
Proof.
  pose proof (Inv_initial wl) as HI.
  pose proof (loadHighScore_range wl) as Hs.
  unfold initialModel, bind, ret in *.
  destruct (loadHighScore wl) as [hs wl']. cbn in *.
  constructor; cbn; try assumption.
  - intros H. contradiction.
  - constructor.
  - constructor.
  - unfold GoInt.in_range, GoInt.min_int, GoInt.max_int. lia.
Qed.

Lemma Safe_resize m Width Height wl :
  Safe m -> Safe (next m (WindowSizeMsg Width Height) wl).
Proof.
  intros [HI Hf Hk Hs Hh Hd].
  pose proof (Inv_resize m Width Height wl HI) as HI'.
  unfold next, Update, ret, recalcSizes in *. cbn in *.
  constructor; cbn; try assumption.
  intros _. unfold restY. cbn. lia.
Qed.

Lemma Safe_key m key wl : Safe m -> Safe (next m (KeyMsg key) wl).
Proof.
  intros HS. pose proof (Inv_key m key wl (safe_inv m HS)) as HI'.
  destruct HS as [HI Hf Hk Hs Hh Hd].
  unfold next, Update, bind, ret, time_Now in *.
  destruct (is_quit key); [constructor; assumption |].
  destruct (is_jump key); [| constructor; assumption].
  destruct (gameOver m).
  - destruct (restartAt m <? _); [| constructor; assumption].
    cbn in *. constructor; cbn; try assumption.
    + intros _. unfold restY. cbn. lia.
    + constructor.
    + constructor.
    + unfold GoInt.in_range, GoInt.min_int, GoInt.max_int. lia.
  - destruct (playerY m =? restY m); constructor; assumption.
Qed.

Lemma furthest_apart kept cols r kind :
  Forall (fun ob => -1 <= x ob <= 2 ^ 62 + 2) kept ->
  10 <= cols <= 2 ^ 62 - 1 -> 0 <= r <= 3 ->
  furthest_loop kept (-1) < GoInt.sub (GoInt.sub cols minGapCells) 1 ->
  Forall (fun o => apart o (mkObstacle (GoInt.add cols r) kind)) kept.
Proof.
  intros Hrange Hc Hr Hgap. apply Forall_forall. intros o Hin.
  pose proof (furthest_loop_bound kept (-1) o Hin) as Hle.
  unfold minGapCells, apart in *. cbn.
  rewrite (sub_exact cols 4) in Hgap
    by (unfold GoInt.in_range, GoInt.min_int, GoInt.max_int; lia).
  rewrite sub_exact in Hgap
    by (unfold GoInt.in_range, GoInt.min_int, GoInt.max_int; lia).
  rewrite add_exact
    by (unfold GoInt.in_range, GoInt.min_int, GoInt.max_int; lia).
  unfold minGapCells. lia.
Qed.

Lemma Safe_step m wl : Safe m -> playing m -> Safe (fst (fst (step m wl))).
Proof.
  intros HS Hplay. pose proof (Inv_step m wl (safe_inv m HS) Hplay) as HI'.
  destruct HS as [HI Hf Hk Hs Hh Hd].
  pose proof (step_score m wl (proj1 Hplay)) as Hscore. cbv zeta in Hscore.
  destruct (step_spec m wl)
    as (extra & Hobs & Hsp & _ & _ & Hle & Hr' & _ & _ & Hdist & _).
  assert (Hdr : GoInt.in_range (dist (fst (fst (step m wl)))))
    by (rewrite Hdist; apply wrap_in_range).
  destruct HI as [_ Hg Ho]. destruct Hplay as (_ & Hrows & Hcols).
  destruct Hg as [(H0 & _) | (_ & Hc)]; [contradiction |].
  rewrite (scrolled_exact _ Ho) in Hobs, Hsp.
  assert (Hkept_range :
            Forall (fun ob => -1 <= x ob <= 2 ^ 62 + 2)
              (filter on_screen
                 (map (fun ob => mkObstacle (x ob - 1) (typ ob))
                    (obstacles m)))).
  { apply Forall_forall. intros o Hin. apply filter_In in Hin.
    destruct Hin as [Hin Hon]. apply in_map_iff in Hin.
    destruct Hin as (o' & <- & Hin'). rewrite Forall_forall in Ho.
    specialize (Ho o' Hin'). unfold on_screen in Hon. cbn in *.
    apply Z.leb_le in Hon. lia. }
  constructor.
  - exact HI'.
  - intros _. exact Hle.
  - rewrite Hobs. apply Forall_app. split.
    + apply Forall_forall. intros o Hin. apply filter_In in Hin.
      destruct Hin as [Hin _]. apply in_map_iff in Hin.
      destruct Hin as (o' & <- & Hin'). rewrite Forall_forall in Hk.
      exact (Hk o' Hin').
    + destruct Hsp as [-> | (r & kind & -> & _ & Hkind & _)];
        constructor; [exact Hkind | constructor].
  - rewrite Hobs.
    destruct Hsp as [-> | (r & kind & -> & Hr & _ & Hgap)].
    + rewrite app_nil_r. apply spaced_shift. exact Hs.
    + apply spaced_snoc; [apply spaced_shift; exact Hs |].
      apply furthest_apart; assumption.
  - rewrite Hscore. unfold GoInt.in_range, GoInt.min_int, GoInt.max_int in *.
    destruct (gameOver _); lia.
  - exact Hdr.
Qed.

(** Every message keeps [Safe]. *)
Lemma Safe_Update m msg wl : Safe m -> Safe (next m msg wl).
Proof.
  intros HS. destruct msg as [Width Height | key | gen |].
  - now apply Safe_resize.
  - now apply Safe_key.
  - unfold next, Update, ret.
    destruct (gen =? tickGen m); cbn [negb]; [| exact HS].
    destruct (gameOver m) eqn:Hover; [exact HS |].
    destruct (Z.eqb_spec (gameRows m) 0); [exact HS |].
    destruct (Z.eqb_spec (gameCols m) 0); [exact HS |].
    cbn [orb]. apply Safe_step; [exact HS | repeat split; assumption].
  - exact HS.
Qed.

Lemma reachable_Safe m : reachable m -> Safe m.
Proof.
  induction 1 as [wl | m msg wl _ IH _];
    [apply Safe_initial | now apply Safe_Update].
Qed.

(** X4. In every state the program reaches, the frame interval lies
    between 0 and the initial 45 ms, the grid is either not sized yet (and
    then there is no obstacle) or has at least 5 rows and 10 columns, and
    every obstacle position lies between -1 and [2^62 + 2], so that no
    position arithmetic of the game wraps. *)
Theorem reachable_bounds (m : model) :
  reachable m ->
  0 <= frameDur m <= 45 * 1000000
  /\ ((gameRows m = 0 /\ gameCols m = 0 /\ obstacles m = [])
      \/ (5 <= gameRows m <= GoInt.max_int
          /\ 10 <= gameCols m <= 2 ^ 62 - 1))
  /\ (forall ob, In ob (obstacles m) -> -1 <= x ob <= 2 ^ 62 + 2).
Proof.
  intros Hr. destruct (safe_inv m (reachable_Safe m Hr)) as [Hf Hg Ho].
  split; [exact Hf | split; [exact Hg |]].
  intros ob Hin. rewrite Forall_forall in Ho. exact (Ho ob Hin).
Qed.

(** X5. In every reachable state each obstacle is a hole or a rock, and the
    obstacles are kept in strictly increasing position, any two of them at
    least [minGapCells + 2 = 6] cells apart; so no two obstacles ever share
    a column. *)
Theorem obstacles_spaced (m : model) :
  reachable m ->
  Forall hazard (obstacles m)
  /\ StronglySorted (fun a b => x a + 6 <= x b) (obstacles m)
  /\ NoDup (map x (obstacles m)).
Proof.
  intros Hr. pose proof (reachable_Safe m Hr) as HS.
  pose proof (safe_spaced m HS) as Hs. unfold spaced in Hs.
  assert (Hs6 : StronglySorted (fun a b => x a + 6 <= x b) (obstacles m)).
  { clear -Hs. induction Hs as [| a l Hl IH Ha]; constructor; [exact IH |].
    eapply Forall_impl; [| exact Ha]. intros o Ho.
    unfold apart, minGapCells in Ho. lia. }
  split; [exact (safe_kinds m HS) | split; [exact Hs6 |]].
  clear -Hs6. induction Hs6 as [| a l Hl IH Ha]; cbn; constructor;
    [| exact IH].
  intros Hin. apply in_map_iff in Hin. destruct Hin as (o & Hx & Hin).
  rewrite Forall_forall in Ha. specialize (Ha o Hin). lia.
Qed.

(* ------------------------------------------------------------------------ *)
(** ** Further properties: the high score during and across runs *)
(* ------------------------------------------------------------------------ *)

(** X6. No message ever lowers the high score; the tick that ends a run
    sets it to the larger of the old high score and the distance run, and
    a tick that does not end the run leaves it alone. *)
Theorem high_score_never_drops (m : model) (wl : World) :
  (forall msg, highScore m <= highScore (next m msg wl))
  /\ (playing m ->
      let m' := next m (tickMsg (tickGen m)) wl in
      highScore m'
      = if gameOver m' then Z.max (highScore m) (dist m') else highScore m).
Proof.
  assert (Hplay : playing m ->
            let m' := next m (tickMsg (tickGen m)) wl in
            highScore m'
            = if gameOver m' then Z.max (highScore m) (dist m')
              else highScore m).
  { intros Hp. cbv zeta. unfold next. rewrite (accepted_tick_steps m wl Hp).
    apply step_score. exact (proj1 Hp). }
  split; [| exact Hplay].
  intros msg. destruct msg as [Width Height | key | gen |].
  - cbn. lia.
  - unfold next, Update, bind, ret, time_Now.
    destruct (is_quit key); [cbn; lia |].
    destruct (is_jump key); [| cbn; lia].
    destruct (gameOver m).
    + destruct (restartAt m <? _); cbn; lia.
    + destruct (playerY m =? restY m); cbn; lia.
  - destruct (Z.eq_dec gen (tickGen m)) as [-> | Hne].
    + destruct (gameOver m) eqn:Hover.
      { unfold next, Update. rewrite Z.eqb_refl, Hover. cbn. lia. }
      destruct (Z.eq_dec (gameRows m) 0) as [Hr | Hr].
      { unfold next, Update. rewrite Z.eqb_refl, Hover, Hr. cbn. lia. }
      destruct (Z.eq_dec (gameCols m) 0) as [Hc | Hc].
      { unfold next, Update. rewrite Z.eqb_refl, Hover, Hc, orb_true_r.
        cbn. lia. }
      specialize (Hplay ltac:(repeat split; assumption)). cbv zeta in Hplay.
      rewrite Hplay. destruct (gameOver _); lia.
    + unfold next, Update.
      destruct (Z.eqb_spec gen (tickGen m)); [contradiction |]. cbn. lia.
  - cbn. lia.
Qed.

Lemma high_score_never_drops_witness :
  highScore (next Scenario.hole_ahead (tickMsg 0) Scenario.quiet) = 1.
Proof.
  destruct (high_score_never_drops Scenario.hole_ahead Scenario.quiet)
    as (_ & H).
  specialize (H ltac:(repeat split; discriminate)). cbv zeta in H.
  refine (eq_trans H _). vm_compute. reflexivity.
Defined.

Lemma score_path_cwd wl wl' : cwd wl' = cwd wl -> score_path wl' = score_path wl.
Proof.
  unfold score_path, scoreFilePath, bind, os_Getwd, ret. intros ->.
  destruct (cwd wl); reflexivity.
Qed.

(** [loadHighScore] looks at the disk only. *)
Lemma load_same_disk wl wl' :
  same_disk wl wl' -> fst (loadHighScore wl') = fst (loadHighScore wl).
Proof.
  intros (Hc & Hf & _). rewrite !loadHighScore_spec.
  now rewrite (score_path_cwd wl wl' Hc), Hf.
Qed.

(** What [setGameOver] leaves in the world. *)
Lemma setGameOver_world m wl :
  let wl' := snd (setGameOver m wl) in
  cwd wl' = cwd wl /\ writable wl' = writable wl
  /\ clock wl' = clock wl /\ clock_reads wl' = S (clock_reads wl)
  /\ files wl'
     = if (highScore m <? dist m) && writable wl (score_path wl)
       then fun p => if String.eqb p (score_path wl)
                     then Some (Strconv.Itoa (dist m)) else files wl p
       else files wl.
Proof.
  unfold setGameOver, saveHighScore, score_path, scoreFilePath, bind,
    time_Now, os_Getwd, os_WriteFile, ret.
  destruct (highScore m <? dist m); cbn; [| repeat split].
  destruct (cwd wl) eqn:Hcwd; cbn;
    (destruct (writable wl _) eqn:Hw; cbn; repeat split; assumption).
Qed.

(** What the collision loop leaves on the disk. *)
Lemma collide_disk obs : forall m wl,
  let wl' := snd (collide obs m wl) in
  cwd wl' = cwd wl /\ writable wl' = writable wl
  /\ files wl'
     = if existsb (hits m) obs && (highScore m <? dist m)
          && writable wl (score_path wl)
       then fun p => if String.eqb p (score_path wl)
                     then Some (Strconv.Itoa (dist m)) else files wl p
       else files wl.
Proof.
  induction obs as [| ob rest IH]; intros m wl; [cbn; repeat split |].
  cbn [collide existsb]. unfold bind. destruct (hits m ob) eqn:Hhit.
  - rewrite (collide1_hit ob m wl Hhit). cbn [orb].
    pose proof (setGameOver_spec m wl) as Hs. cbv zeta in Hs.
    pose proof (setGameOver_world m wl) as Hw. cbv zeta in Hw.
    destruct (setGameOver m wl) as [m1 wl1]. cbn [fst snd] in *.
    destruct Hs as (Hf & _ & _ & Hhs).
    destruct Hf as (_ & _ & _ & _ & _ & _ & Hd & _).
    destruct Hw as (Hc & Hwr & _ & _ & Hfiles).
    specialize (IH m1 wl1). cbv zeta in IH.
    destruct IH as (Hc' & Hwr' & Hfiles').
    assert (Hno : (highScore m1 <? dist m1) = false).
    { apply Z.ltb_ge. rewrite Hhs, Hd. lia. }
    rewrite Hno, andb_false_r in Hfiles'. cbn [andb] in Hfiles'.
    rewrite Hfiles', Hfiles. cbn [andb].
    repeat split; congruence.
  - rewrite (collide1_quiet ob m wl Hhit). cbn [orb]. apply IH.
Qed.

(** The disk after the gameplay step. *)
Lemma step_disk m wl :
  gameOver m = false ->
  let m' := fst (fst (step m wl)) in
  let wl' := snd (step m wl) in
  cwd wl' = cwd wl /\ writable wl' = writable wl
  /\ files wl'
     = if gameOver m' && (highScore m <? dist m')
          && writable wl (score_path wl)
       then fun p => if String.eqb p (score_path wl)
                     then Some (Strconv.Itoa (dist m')) else files wl p
       else files wl.
Proof.
  intros Hrun. cbv zeta.
  destruct (step_spec m wl)
    as (extra' & _ & _ & _ & _ & _ & _ & _ & _ & Hdist & _ & _ & _).
  rewrite Hdist.
  destruct (step_unfold m wl)
    as (extra & wl2 & _ & (Hc2 & Hf2 & Hw2) & _ & _ & Hstep).
  cbv zeta in Hstep. rewrite Hstep. cbn [fst snd]. clear Hstep Hdist.
  destruct (physics_spec m) as (_ & _ & _ & _ & Hg & _ & _ & Hd).
  assert (Hhs : highScore (physics m) = highScore m).
  { unfold physics. destruct (_ <=? _); reflexivity. }
  remember (set_obstacles (physics m)
              (filter on_screen (map scrolled (obstacles m)) ++ extra))
    as m2 eqn:Hm2.
  assert (Hg2 : gameOver m2 = false) by (subst m2; cbn; congruence).
  assert (Hs2 : highScore m2 = highScore m) by (subst m2; cbn; congruence).
  assert (Hd2 : dist m2 = GoInt.add (dist m) 1) by (subst m2; cbn; congruence).
  clear Hm2.
  pose proof (collide_spec (obstacles m2) m2 wl2) as [_ Hover].
  pose proof (collide_disk (obstacles m2) m2 wl2) as (Hc & Hw & Hfiles).
  cbn [set_frameDur gameOver].
  rewrite Hover, Hfiles, (score_path_cwd wl wl2 Hc2), Hw2, Hf2, Hg2, Hs2, Hd2.
  cbn [orb]. repeat split; congruence.
Qed.

(** X7. When the tick that ends a run beats the high score and the score
    file can be written, the file then holds that distance: any later
    start of the program on the same disk begins with it as its high
    score.  A tick that does not end the run, or ends it without beating
    the high score, leaves every file as it was. *)
Theorem new_high_score_persists (m : model) (wl : World) :
  playing m -> 0 <= highScore m ->
  let m' := next m (tickMsg (tickGen m)) wl in
  let wl' := world_of m (tickMsg (tickGen m)) wl in
  (gameOver m' = true -> highScore m < dist m' ->
   writable wl (score_path wl) = true ->
   forall fresh, same_disk wl' fresh ->
     highScore (fst (initialModel fresh)) = dist m'
     /\ highScore m' = dist m')
  /\ (gameOver m' = false \/ dist m' <= highScore m -> files wl' = files wl).
Proof.
  intros Hplay Hhs. cbv zeta. unfold next, world_of.
  pose proof (step_score m wl (proj1 Hplay)) as Hscore.
  pose proof (step_disk m wl (proj1 Hplay)) as Hdisk.
  destruct (step_spec m wl)
    as (extra & _ & _ & _ & _ & _ & _ & _ & _ & Hdist & _ & _ & _).
  rewrite (accepted_tick_steps m wl Hplay). cbv zeta in Hscore, Hdisk.
  set (m' := fst (fst (step m wl))) in *.
  set (wl' := snd (step m wl)) in *.
  destruct Hdisk as (Hc & Hw & Hfiles). split.
  - intros Hover Hbeat Hwr fresh Hfresh.
    rewrite Hover in Hscore. split; [| lia].
    assert (Hlt : (highScore m <? dist m') = true) by (apply Z.ltb_lt; lia).
    rewrite Hover, Hlt, Hwr in Hfiles. cbn [andb] in Hfiles.
    unfold initialModel, bind, ret.
    pose proof (load_same_disk wl' fresh Hfresh) as Hload.
    destruct (loadHighScore fresh) as [hs wl2]. cbn [fst highScore] in *.
    rewrite Hload, loadHighScore_spec, (score_path_cwd wl wl' Hc), Hfiles.
    rewrite String.eqb_refl, TrimSpace_Itoa, Atoi_Itoa.
    + destruct (Z.ltb_spec (dist m') 0); [lia | reflexivity].
    + subst m'. rewrite Hdist. apply wrap_in_range.
  - intros [Hover | Hle].
    + rewrite Hover in Hfiles. exact Hfiles.
    + assert (Hlt : (highScore m <? dist m') = false) by (apply Z.ltb_ge; lia).
      rewrite Hlt, andb_false_r in Hfiles. exact Hfiles.
Qed.

Lemma new_high_score_persists_witness :
  highScore
    (fst (initialModel
            (world_of Scenario.hole_ahead (tickMsg 0) Scenario.quiet))) = 1.
Proof.
  destruct (new_high_score_persists Scenario.hole_ahead Scenario.quiet)
    as (H & _).
  - repeat split; discriminate.
  - discriminate.
  - cbv zeta in H.
    destruct (H eq_refl eq_refl eq_refl
                (world_of Scenario.hole_ahead (tickMsg 0) Scenario.quiet))
      as (Hload & _).
    + repeat split.
    + refine (eq_trans Hload _). vm_compute. reflexivity.
Defined.

(* ------------------------------------------------------------------------ *)
(** ** Further properties: the cooldown *)
(* ------------------------------------------------------------------------ *)

Lemma hits_column m ob : hits m ob = true -> x ob = 2.
Proof.
  unfold hits. destruct (Z.eqb_spec (x ob) 2); [trivial | discriminate].
Qed.

(** With spaced obstacles the collision loop calls [setGameOver] at most
    once, so the cooldown starts at the first clock reading of the loop. *)
Lemma collide_once obs : forall m wl,
  spaced obs -> existsb (hits m) obs = true ->
  restartAt (fst (collide obs m wl)) = now_of wl + 2 * Second.
Proof.
  induction obs as [| ob rest IH]; intros m wl Hs Hex; [discriminate |].
  unfold spaced in Hs. inversion Hs as [| ? ? Hrest Hall]; subst.
  cbn [collide]. unfold bind. destruct (hits m ob) eqn:Hhit.
  - rewrite (collide1_hit ob m wl Hhit).
    pose proof (setGameOver_spec m wl) as Hsg. cbv zeta in Hsg.
    destruct (setGameOver m wl) as [m1 wl1]. cbn [fst] in Hsg.
    destruct Hsg as (Hf & _ & Hat & _).
    assert (Hquiet : existsb (hits m1) rest = false).
    { rewrite (frame_existsb_hits m m1 rest Hf).
      apply not_true_is_false. intros Hex'.
      apply existsb_exists in Hex'. destruct Hex' as (o & Hin & Ho).
      apply hits_column in Ho. apply hits_column in Hhit.
      rewrite Forall_forall in Hall. specialize (Hall o Hin).
      unfold apart, minGapCells in Hall. lia. }
    rewrite (collide_quiet rest m1 wl1 Hquiet). exact Hat.
  - rewrite (collide1_quiet ob m wl Hhit).
    cbn [existsb] in Hex. rewrite Hhit in Hex. cbn [orb] in Hex.
    now apply IH.
Qed.

Lemma jump_not_after (m : model) (key : string) (wl : World) :
  gameOver m = true ->
  key = " "%string \/ key = "w"%string ->
  now_of wl <= restartAt m ->
  next m (KeyMsg key) wl = m /\ cmd_of m (KeyMsg key) wl = None.
Proof.
  intros Hover Hkey Hnow. destruct (jump_key_cases key Hkey) as [Hq Hj].
  unfold cmd_of, next, Update, bind, time_Now, now_of in *.
  rewrite Hq, Hj, Hover.
  destruct (Z.ltb_spec (restartAt m) (clock wl (clock_reads wl))); [lia |].
  split; reflexivity.
Qed.

Lemma crash_clock m wl :
  Safe m -> playing m ->
  gameOver (fst (fst (step m wl))) = true ->
  restartAt (fst (fst (step m wl))) = now_of wl + 2 * Second.
Proof.
  intros HS Hplay Hover.
  pose proof (Safe_step m wl HS Hplay) as HS'.
  pose proof (safe_spaced _ HS') as Hsp.
  destruct (step_unfold m wl)
    as (extra & wl2 & _ & _ & Hclock & Hreads & Hstep).
  cbv zeta in Hstep. rewrite Hstep in *. cbn [fst snd] in *. clear Hstep.
  destruct (physics_spec m) as (_ & _ & _ & _ & Hg & _).
  remember (set_obstacles (physics m)
              (filter on_screen (map scrolled (obstacles m)) ++ extra))
    as m2 eqn:Hm2.
  assert (Hg2 : gameOver m2 = false)
    by (subst m2; cbn; rewrite Hg; exact (proj1 Hplay)).
  clear Hm2.
  pose proof (collide_spec (obstacles m2) m2 wl2) as [Hf Hov].
  cbn [set_frameDur gameOver obstacles restartAt] in *.
  rewrite Hov, Hg2 in Hover. cbn [orb] in Hover.
  destruct Hf as (_ & _ & _ & _ & _ & _ & _ & _ & _ & Hobs).
  rewrite Hobs in Hsp.
  rewrite (collide_once (obstacles m2) m2 wl2 Hsp Hover).
  unfold now_of. now rewrite Hclock, Hreads.
Qed.

(** X8. In a reachable state, the tick that ends a run reads the clock
    once and sets [restartAt] two seconds after that reading.  From then
    on a jump key is ignored as long as the clock has not passed that
    instant, and restarts the game once it has. *)
Theorem cooldown_two_seconds (m : model) (wl : World) :
  reachable m -> playing m ->
  let m' := next m (tickMsg (tickGen m)) wl in
  gameOver m' = true ->
  restartAt m' = now_of wl + 2 * 1000000000
  /\ forall key wl2,
       key = " "%string \/ key = "w"%string ->
       (now_of wl2 <= now_of wl + 2 * 1000000000 ->
        next m' (KeyMsg key) wl2 = m' /\ cmd_of m' (KeyMsg key) wl2 = None)
       /\ (now_of wl + 2 * 1000000000 < now_of wl2 ->
           next m' (KeyMsg key) wl2 = fst (restart m')).
Proof.
  intros Hr Hplay m' Hover. subst m'. unfold next in *.
  rewrite (accepted_tick_steps m wl Hplay) in *.
  pose proof (crash_clock m wl (reachable_Safe m Hr) Hplay Hover) as Hat.
  unfold Second in Hat. split; [exact Hat |].
  intros key wl2 Hkey. split; intros Hnow.
  - apply jump_not_after; [exact Hover | exact Hkey | lia].
  - apply jump_after_cooldown; [exact Hover | exact Hkey | lia].
Qed.

(* ------------------------------------------------------------------------ *)
(** ** Further properties: several ticks in a row *)
(* ------------------------------------------------------------------------ *)

Lemma physics_arc m :
  (playerY (physics m), velY (physics m))
  = arc (restY m) (playerY m, velY m).
Proof.
  unfold physics, arc. cbn [fst snd]. destruct (_ <=? _); reflexivity.
Qed.

(** What [n] gameplay ticks in a row do to the player, the distance and
    the frame interval. *)
Lemma run_ticks_trace n : forall m wl,
  gameRows m <> 0 -> gameCols m <> 0 ->
  (forall j, (j < n)%nat -> gameOver (fst (run_ticks j m wl)) = false) ->
  let m' := fst (run_ticks n m wl) in
  (playerY m', velY m') = Nat.iter n (arc (restY m)) (playerY m, velY m)
  /\ dist m' = Nat.iter n (fun d => GoInt.add d 1) (dist m)
  /\ frameDur m' = Nat.iter n accelerate (frameDur m)
  /\ tickGen m' = tickGen m
  /\ gameRows m' = gameRows m /\ gameCols m' = gameCols m.
Proof.
  induction n as [| n IH]; intros m wl Hr Hc Hrun; [cbn; repeat split |].
  assert (Hplay : playing m).
  { repeat split; try assumption. apply (Hrun 0%nat). lia. }
  assert (Hrun1 : forall j, (j < n)%nat ->
            gameOver (fst (run_ticks j (next m (tickMsg (tickGen m)) wl)
                             (world_of m (tickMsg (tickGen m)) wl))) = false).
  { intros j Hj. specialize (Hrun (S j) ltac:(lia)).
    cbn [run_ticks] in Hrun. unfold bind in Hrun. unfold next, world_of.
    destruct (Update m (tickMsg (tickGen m)) wl) as [r wl1]. exact Hrun. }
  pose proof (accepted_tick_steps m wl Hplay) as Hstep.
  destruct (step_spec m wl)
    as (extra & _ & _ & Hy & Hv & _ & Hr' & Hc' & Ht & Hd & Hf & _).
  rewrite <- Hstep in Hy, Hv, Hr', Hc', Ht, Hd, Hf.
  specialize (IH (next m (tickMsg (tickGen m)) wl)
                (world_of m (tickMsg (tickGen m)) wl)).
  unfold next, world_of in IH, Hrun1.
  cbv zeta. cbn [run_ticks]. unfold bind.
  destruct (Update m (tickMsg (tickGen m)) wl) as [r wl1].
  cbn [fst snd] in *.
  specialize (IH ltac:(congruence) ltac:(congruence) Hrun1).
  cbv zeta in IH. destruct IH as (Hyv & Hdist & Hfd & Htg & Hrr & Hcc).
  assert (HR : restY (fst r) = restY m) by (unfold restY; congruence).
  rewrite HR, Hy, Hv, physics_arc in Hyv.
  rewrite Hd in Hdist. rewrite Hf in Hfd.
  rewrite !Nat.iter_succ, <- !Nat.iter_swap.
  repeat split; try congruence.
  rewrite Hdist. apply (Nat.iter_swap n Z (fun d => GoInt.add d 1)).
Qed.

Lemma arc_exact R y v :
  GoInt.in_range (v + 1) -> GoInt.in_range (y + (v + 1)) ->
  arc R (y, v) = if R <=? y + (v + 1) then (R, 0) else (y + (v + 1), v + 1).
Proof.
  intros Hv Hy. unfold arc, gravity. cbn [fst snd].
  rewrite (add_exact v 1 Hv), (add_exact y (v + 1) Hy). reflexivity.
Qed.

(** The seven ticks of a jump, on the pair (height, velocity). *)
Lemma arc_jump R n :
  GoInt.min_int + 10 <= R <= GoInt.max_int -> (n <= 7)%nat ->
  Nat.iter n (arc R) (R, jumpVel)
  = (R - jump_height n, nth n [-4; -3; -2; -1; 0; 1; 2; 0] 0).
Proof.
  intros HR Hn. unfold GoInt.min_int, GoInt.max_int in HR.
  assert (Hstep : forall y v,
            -10 <= y + (v + 1) - R <= 0 -> -4 <= v <= 3 ->
            arc R (y, v)
            = if R <=? y + (v + 1) then (R, 0) else (y + (v + 1), v + 1)).
  { intros y v Hy Hv.
    apply arc_exact; unfold GoInt.in_range, GoInt.min_int, GoInt.max_int;
      lia. }
  assert (H0 : Nat.iter 0 (arc R) (R, jumpVel) = (R - 0, -4))
    by (cbn; f_equal; lia).
  assert (H1 : Nat.iter 1 (arc R) (R, jumpVel) = (R - 3, -3)).
  { rewrite Nat.iter_succ, H0, Hstep by lia.
    destruct (Z.leb_spec R (R - 0 + (-4 + 1))); [lia | f_equal; lia]. }
  assert (H2 : Nat.iter 2 (arc R) (R, jumpVel) = (R - 5, -2)).
  { rewrite Nat.iter_succ, H1, Hstep by lia.
    destruct (Z.leb_spec R (R - 3 + (-3 + 1))); [lia | f_equal; lia]. }
  assert (H3 : Nat.iter 3 (arc R) (R, jumpVel) = (R - 6, -1)).
  { rewrite Nat.iter_succ, H2, Hstep by lia.
    destruct (Z.leb_spec R (R - 5 + (-2 + 1))); [lia | f_equal; lia]. }
  assert (H4 : Nat.iter 4 (arc R) (R, jumpVel) = (R - 6, 0)).
  { rewrite Nat.iter_succ, H3, Hstep by lia.
    destruct (Z.leb_spec R (R - 6 + (-1 + 1))); [lia | f_equal; lia]. }
  assert (H5 : Nat.iter 5 (arc R) (R, jumpVel) = (R - 5, 1)).
  { rewrite Nat.iter_succ, H4, Hstep by lia.
    destruct (Z.leb_spec R (R - 6 + (0 + 1))); [lia | f_equal; lia]. }
  assert (H6 : Nat.iter 6 (arc R) (R, jumpVel) = (R - 3, 2)).
  { rewrite Nat.iter_succ, H5, Hstep by lia.
    destruct (Z.leb_spec R (R - 5 + (1 + 1))); [lia | f_equal; lia]. }
  assert (H7 : Nat.iter 7 (arc R) (R, jumpVel) = (R - 0, 0)).
  { rewrite Nat.iter_succ, H6, Hstep by lia.
    destruct (Z.leb_spec R (R - 3 + (2 + 1))); [f_equal; lia | lia]. }
  do 8 (destruct n as [| n]; [assumption |]). lia.
Qed.

Lemma reachable_deliver ms : forall m wl,
  Forall sane ms -> reachable m -> reachable (fst (deliver ms m wl)).
Proof.
  induction ms as [| msg rest IH]; intros m wl Hs Hr; cbn; [exact Hr |].
  inversion Hs as [| ? ? Hmsg Hrest]; subst.
  unfold bind. pose proof (reach_step m msg wl Hr Hmsg) as H1.
  unfold next in H1.
  destruct (Update m msg wl) as [[m1 c] wl1]. cbn in *. now apply IH.
Qed.

Lemma sane_ticks n gen : Forall sane (repeat (tickMsg gen) n).
Proof. induction n; cbn; constructor; [exact I | assumption]. Qed.

Lemma sane_size_42_18 : sane (WindowSizeMsg 42 18).
Proof. cbn. split; split; discriminate. Qed.

Lemma reachable_sized : reachable Scenario.sized.
Proof.
  apply reachable_deliver; [| constructor].
  constructor; [exact sane_size_42_18 | constructor].
Qed.

Lemma reachable_after_opening : reachable Scenario.after_opening.
Proof.
  apply reachable_deliver; [| constructor].
  constructor; [exact sane_size_42_18 | apply sane_ticks].
Qed.

Lemma reachable_bounds_witness :
  0 <= frameDur Scenario.after_opening <= 45 * 1000000.
Proof.
  exact (proj1 (reachable_bounds Scenario.after_opening
                  reachable_after_opening)).
Defined.

Lemma obstacles_spaced_witness :
  List.length (obstacles Scenario.after_opening) = 2%nat
  /\ NoDup (map x (obstacles Scenario.after_opening)).
Proof.
  split; [vm_compute; reflexivity |].
  exact (proj2 (proj2 (obstacles_spaced Scenario.after_opening
                         reachable_after_opening))).
Defined.

Lemma cooldown_two_seconds_witness :
  reachable Scenario.after_opening
  /\ exists n wl,
       let m := fst (run_ticks n Scenario.after_opening wl) in
       reachable m /\ playing m
       /\ restartAt (next m (tickMsg (tickGen m)) Scenario.later)
          = 8 * Second + 2 * 1000000000.
Proof.
  split; [exact reachable_after_opening |].
  exists 10%nat, Scenario.quiet. cbv zeta.
  set (m := fst (run_ticks 10 Scenario.after_opening Scenario.quiet)).
  assert (Hr : reachable m).
  { assert (E : m = fst (deliver (repeat (tickMsg 0) 10)
                           Scenario.after_opening Scenario.quiet))
      by (vm_compute; reflexivity).
    rewrite E. apply reachable_deliver;
      [apply sane_ticks | exact reachable_after_opening]. }
  assert (Hp : playing m) by (repeat split; vm_compute; discriminate).
  split; [exact Hr | split; [exact Hp |]].
  apply (cooldown_two_seconds m Scenario.later Hr Hp).
  vm_compute. reflexivity.
Defined.

Lemma iter_add_one n : forall d,
  GoInt.in_range d -> d + Z.of_nat n <= GoInt.max_int ->
  Nat.iter n (fun d => GoInt.add d 1) d = d + Z.of_nat n.
Proof.
  induction n as [| n IH]; intros d Hd Hn; [cbn; lia |].
  rewrite Nat.iter_succ, IH by (try assumption; lia).
  rewrite add_exact; [lia |].
  unfold GoInt.in_range, GoInt.min_int, GoInt.max_int in *. lia.
Qed.

Lemma jump_takes_seven_steps
  (m : model) (key : string) (wl0 wl : World) (n : nat) :
  reachable m -> playing m -> playerY m = restY m ->
  key = " "%string \/ key = "w"%string ->
  (n <= 7)%nat ->
  let m0 := next m (KeyMsg key) wl0 in
  (forall j, (j < n)%nat -> gameOver (fst (run_ticks j m0 wl)) = false) ->
  let m' := fst (run_ticks n m0 wl) in
  playerY m' = gameRows m - 2 - jump_height n
  /\ ((0 < n < 7)%nat -> playerY m' < restY m')
  /\ (n = 7%nat -> playerY m' = restY m' /\ velY m' = 0).
Proof.
  intros Hr Hplay Hrest Hkey Hn m0 Hrun m'.
  destruct (jump_key_cases key Hkey) as [Hq Hj].
  destruct Hplay as (Hover & Hrows & Hcols).
  assert (Hm0 : m0 = set_velY m jumpVel).
  { subst m0. unfold next, Update. rewrite Hq, Hj, Hover, Hrest, Z.eqb_refl.
    reflexivity. }
  destruct (safe_inv m (reachable_Safe m Hr)) as [_ Hg _].
  destruct Hg as [(H0 & _) | (Hrr & _)]; [contradiction |].
  assert (HR : restY m = gameRows m - 2).
  { unfold restY. apply sub_exact.
    unfold GoInt.in_range, GoInt.min_int, GoInt.max_int in *. lia. }
  pose proof (run_ticks_trace n m0 wl) as Htr.
  rewrite Hm0 in Htr. cbn [set_velY set_motion gameRows gameCols playerY velY]
    in Htr.
  rewrite <- Hm0 in Htr. specialize (Htr Hrows Hcols Hrun).
  cbv zeta in Htr. destruct Htr as (Hyv & _ & _ & _ & Hrows' & _).
  assert (HR0 : restY m0 = restY m) by (rewrite Hm0; reflexivity).
  rewrite HR0, Hrest in Hyv.
  rewrite (arc_jump (restY m) n) in Hyv
    by (try assumption; unfold GoInt.min_int, GoInt.max_int in *; lia).
  injection Hyv as Hy Hv. fold m' in Hy, Hv, Hrows'.
  assert (HR' : restY m' = restY m) by (unfold restY; congruence).
  rewrite HR'. split; [lia | split].
  - intros Hmid. rewrite Hy. unfold jump_height.
    do 7 (destruct n as [| n]; [cbn; lia |]). lia.
  - intros ->. rewrite Hy, Hv. cbn. split; lia.
Qed.

(** X9. A jump lasts seven ticks.  In a reachable running state with the
    player at rest height, after the jump key the player is 3, 5, 6, 6, 5,
    3 rows above the rest height after ticks 1 to 6 -- airborne on each of
    them -- and back at rest height with velocity 0 after the seventh, as
    long as the run lasts. *)
Theorem jump_takes_seven_ticks
  (m : model) (key : string) (wl0 wl : World) (n : nat) :
  reachable m -> playing m -> playerY m = restY m ->
  key = " "%string \/ key = "w"%string ->
  (n <= 7)%nat ->
  let m0 := next m (KeyMsg key) wl0 in
  (forall j, (j < n)%nat -> gameOver (fst (run_ticks j m0 wl)) = false) ->
  let m' := fst (run_ticks n m0 wl) in
  playerY m' = gameRows m - 2 - jump_height n
  /\ ((0 < n < 7)%nat -> playerY m' < restY m')
  /\ (n = 7%nat -> playerY m' = restY m' /\ velY m' = 0).
Proof. apply jump_takes_seven_steps. Qed.

Lemma jump_takes_seven_ticks_witness :
  playerY (fst (run_ticks 3 (next Scenario.sized (KeyMsg " ") Scenario.quiet)
                  Scenario.quiet)) = 10 - 2 - 6.
Proof.
  pose proof (jump_takes_seven_ticks Scenario.sized " " Scenario.quiet
                Scenario.quiet 3 reachable_sized) as H.
  cbv zeta in H. refine (eq_trans (proj1 (H _ _ _ _ _)) _).
  - repeat split; vm_compute; discriminate.
  - vm_compute. reflexivity.
  - left. reflexivity.
  - lia.
  - intros j Hj. do 3 (destruct j as [| j]; [vm_compute; reflexivity |]). lia.
  - vm_compute. reflexivity.
Defined.

(** X10. While the run lasts, [n] accepted ticks add exactly [n] to the
    distance (below the largest [int]), apply the speed ramp [n] times to
    the frame interval and keep the generation. *)
Theorem ticks_count_distance (m : model) (wl : World) (n : nat) :
  gameRows m <> 0 -> gameCols m <> 0 ->
  (forall j, (j < n)%nat -> gameOver (fst (run_ticks j m wl)) = false) ->
  GoInt.in_range (dist m) -> dist m + Z.of_nat n <= GoInt.max_int ->
  let m' := fst (run_ticks n m wl) in
  dist m' = dist m + Z.of_nat n
  /\ frameDur m' = Nat.iter n accelerate (frameDur m)
  /\ tickGen m' = tickGen m.
Proof.
  intros Hr Hc Hrun Hd Hn m'. subst m'.
  destruct (run_ticks_trace n m wl Hr Hc Hrun) as (_ & Hdist & Hf & Ht & _).
  rewrite Hdist, (iter_add_one n (dist m) Hd Hn). repeat split; assumption.
Qed.

Lemma ticks_count_distance_witness :
  dist (fst (run_ticks 6 Scenario.sized Scenario.quiet)) = 0 + 6.
Proof.
  refine (proj1 (ticks_count_distance Scenario.sized Scenario.quiet 6
                   _ _ _ _ _)).
  - vm_compute. discriminate.
  - vm_compute. discriminate.
  - intros j Hj. do 6 (destruct j as [| j]; [vm_compute; reflexivity |]). lia.
  - vm_compute. split; discriminate.
  - vm_compute. discriminate.
Defined.

Lemma iter_accelerate_bound n : forall d,
  0 <= d -> 0 <= Nat.iter n accelerate d <= Z.max 0 (d - Z.of_nat n).
Proof.
  induction n as [| n IH]; intros d Hd; [cbn; lia |].
  rewrite Nat.iter_succ. specialize (IH d Hd).
  destruct (Z.eq_dec (Nat.iter n accelerate d) 0) as [-> | Hne].
  - rewrite accelerate_zero. lia.
  - pose proof (accelerate_shrinks (Nat.iter n accelerate d) ltac:(lia)). lia.
Qed.

(** X11. The speed ramp bottoms out: applied again and again to a frame
    interval [d >= 0] it never goes up, it reaches 0 after at most [d]
    rounds and stays 0, so a run that lasts long enough ends up scheduling
    its ticks with no delay at all. *)
Theorem speed_ramp_bottoms_out (d : Z) :
  0 <= d ->
  (forall n, 0 <= Nat.iter (S n) accelerate d <= Nat.iter n accelerate d)
  /\ (forall n, d <= Z.of_nat n -> Nat.iter n accelerate d = 0).
Proof.
  intros Hd. split.
  - intros n. rewrite Nat.iter_succ. apply accelerate_le.
    apply (iter_accelerate_bound n d Hd).
  - intros n Hn. pose proof (iter_accelerate_bound n d Hd). lia.
Qed.

Lemma speed_ramp_bottoms_out_witness :
  Nat.iter 3 accelerate 3 = 0.
Proof.
  apply (speed_ramp_bottoms_out 3); [lia | reflexivity].
Defined.

(* ------------------------------------------------------------------------ *)
(** ** Further properties: rendering *)
(* ------------------------------------------------------------------------ *)

Lemma set_nth_spec {A : Type} (v : A) : forall l n,
  (n < List.length l)%nat ->
  exists l',
    set_nth n v l = Some l'
    /\ List.length l' = List.length l
    /\ forall k, nth_error l' k = if Nat.eqb k n then Some v else nth_error l k.
Proof.
  induction l as [| a t IH]; intros n Hn; [cbn in Hn; lia |].
  destruct n as [| n].
  - exists (v :: t). repeat split. intros [| k]; reflexivity.
  - cbn in Hn. destruct (IH n ltac:(lia)) as (t' & Hs & Hl & Hk).
    exists (a :: t'). cbn. rewrite Hs. repeat split; [cbn; lia |].
    intros [| k]; [reflexivity | cbn; apply Hk].
Qed.

Lemma rect_row R C g k row :
  rect R C g -> nth_error g k = Some row -> List.length row = C.
Proof.
  intros [_ Hall] Hk. rewrite Forall_forall in Hall.
  apply Hall. eapply nth_error_In. exact Hk.
Qed.

(** A write inside the grid succeeds and changes that one cell. *)
Lemma set_cell_spec R C g r c v :
  rect R C g -> 0 <= r < Z.of_nat R -> 0 <= c < Z.of_nat C ->
  exists g',
    set_cell r c v g = Some g'
    /\ rect R C g'
    /\ forall r' c',
         cell g' r' c'
         = if (r' =? r) && (c' =? c) then Some v else cell g r' c'.
Proof.
  intros Hrect Hr Hc. unfold set_cell.
  destruct (Z.ltb_spec r 0); [lia |]. destruct (Z.ltb_spec c 0); [lia |].
  cbn [orb]. destruct Hrect as [Hlen Hall].
  destruct (nth_error g (Z.to_nat r)) as [row |] eqn:Hrow.
  2:{ apply nth_error_None in Hrow. lia. }
  assert (Hrl : List.length row = C)
    by (apply (rect_row R C g (Z.to_nat r)); [split |]; assumption).
  destruct (set_nth_spec v row (Z.to_nat c) ltac:(lia)) as (row' & Hs & Hl & Hk).
  rewrite Hs.
  destruct (set_nth_spec row' g (Z.to_nat r) ltac:(lia)) as (g' & Hs' & Hl' & Hk').
  exists g'. split; [exact Hs' | split; [split |]].
  - lia.
  - apply Forall_forall. intros w Hin. apply In_nth_error in Hin.
    destruct Hin as (k & Hin). rewrite Hk' in Hin.
    destruct (Nat.eqb k (Z.to_nat r)).
    + injection Hin as <-. lia.
    + apply (rect_row R C g k); [split |]; assumption.
  - intros r' c'. unfold cell.
    destruct (Z.ltb_spec r' 0) as [Hr' | Hr'].
    { cbn [orb]. destruct (Z.eqb_spec r' r); [lia | reflexivity]. }
    destruct (Z.ltb_spec c' 0) as [Hc' | Hc'].
    { cbn [orb]. destruct (Z.eqb_spec c' c); [lia |].
      now rewrite andb_false_r. }
    cbn [orb]. rewrite Hk'.
    destruct (Z.eqb_spec r' r) as [-> | Hne].
    + rewrite Nat.eqb_refl, Hk, Hrow. cbn [andb].
      destruct (Z.eqb_spec c' c) as [-> | Hnc].
      * now rewrite Nat.eqb_refl.
      * destruct (Nat.eqb_spec (Z.to_nat c') (Z.to_nat c)); [lia | reflexivity].
    + cbn [andb].
      destruct (Nat.eqb_spec (Z.to_nat r') (Z.to_nat r)); [lia | reflexivity].
Qed.

Lemma rect_blank R C : rect R C (repeat (repeat blank C) R).
Proof.
  split; [apply repeat_length |].
  apply Forall_forall. intros row Hin. apply repeat_spec in Hin. subst.
  apply repeat_length.
Qed.

Lemma cell_blank R C r c :
  0 <= r < Z.of_nat R -> 0 <= c < Z.of_nat C ->
  cell (repeat (repeat blank C) R) r c = Some blank.
Proof.
  intros Hr Hc. unfold cell.
  destruct (Z.ltb_spec r 0); [lia |]. destruct (Z.ltb_spec c 0); [lia |].
  cbn [orb]. rewrite nth_error_repeat by lia. apply nth_error_repeat. lia.
Qed.

(** The ground loop fills the columns from [x] on in the ground row. *)
Lemma ground_loop_spec R C gY : forall fuel x g,
  rect R C g -> 0 <= gY < Z.of_nat R ->
  0 <= x <= Z.of_nat C -> Z.of_nat C <= GoInt.max_int ->
  Z.of_nat C - x <= Z.of_nat fuel ->
  exists g',
    ground_loop fuel x (Z.of_nat C) gY g = Some g'
    /\ rect R C g'
    /\ forall r c,
         cell g' r c
         = if (r =? gY) && (x <=? c) && (c <? Z.of_nat C)
           then Some groundChar else cell g r c.
Proof.
  induction fuel as [| fuel IH]; intros x g Hrect HgY Hx HC Hfuel.
  - exists g. cbn. repeat split; try apply Hrect. intros r c.
    destruct (Z.leb_spec x c); destruct (Z.ltb_spec c (Z.of_nat C));
      try lia; now rewrite ?andb_false_r.
  - cbn [ground_loop]. destruct (Z.ltb_spec x (Z.of_nat C)) as [Hlt | Hge].
    + destruct (set_cell_spec R C g gY x groundChar Hrect HgY ltac:(lia))
        as (g1 & Hs & Hrect1 & Hcell1).
      rewrite Hs. rewrite add_exact
        by (unfold GoInt.in_range, GoInt.min_int, GoInt.max_int in *; lia).
      destruct (IH (x + 1) g1 Hrect1 HgY ltac:(lia) HC ltac:(lia))
        as (g' & Hg' & Hrect' & Hcell').
      exists g'. split; [exact Hg' | split; [exact Hrect' |]].
      intros r c. rewrite Hcell', Hcell1.
      destruct (Z.eqb_spec r gY); cbn [andb]; [| reflexivity].
      destruct (Z.leb_spec (x + 1) c); destruct (Z.leb_spec x c);
        destruct (Z.ltb_spec c (Z.of_nat C)); destruct (Z.eqb_spec c x);
        cbn [andb]; try lia; reflexivity.
    + exists g. repeat split; try apply Hrect. intros r c.
      destruct (Z.leb_spec x c); destruct (Z.ltb_spec c (Z.of_nat C));
        try lia; now rewrite ?andb_false_r.
Qed.

(** One obstacle: a hole blanks its ground cell, a rock is drawn in the row
    above the ground, anything off the grid is skipped. *)
Lemma draw_obstacle_spec R C ob g :
  rect R C g -> 1 <= Z.of_nat R <= GoInt.max_int ->
  let gY := Z.of_nat R - 1 in
  exists g',
    draw_obstacle (Z.of_nat C) gY ob g = Some g'
    /\ rect R C g'
    /\ forall r c,
         0 <= r < Z.of_nat R -> 0 <= c < Z.of_nat C ->
         cell g' r c
         = if (r =? gY) && ((x ob =? c) && String.eqb (typ ob) "hole")
           then Some blank
           else if (r =? gY - 1) && ((x ob =? c) && String.eqb (typ ob) "rock")
                then Some rockChar
                else cell g r c.
Proof.
  intros Hrect HR gY. unfold draw_obstacle.
  assert (Hsub : GoInt.sub gY 1 = gY - 1).
  { apply sub_exact. subst gY.
    unfold GoInt.in_range, GoInt.min_int, GoInt.max_int in *. lia. }
  rewrite Hsub.
  destruct (Z.ltb_spec (x ob) 0) as [Hneg | Hpos]; cbn [orb].
  { exists g. repeat split; try apply Hrect. intros r c Hr Hc.
    destruct (Z.eqb_spec (x ob) c); [lia |]. cbn [andb].
    now rewrite !andb_false_r. }
  destruct (Z.leb_spec (Z.of_nat C) (x ob)) as [Hout | Hin].
  { exists g. repeat split; try apply Hrect. intros r c Hr Hc.
    destruct (Z.eqb_spec (x ob) c); [lia |]. cbn [andb].
    now rewrite !andb_false_r. }
  destruct (String.eqb_spec (typ ob) "hole") as [Hh | Hh].
  - destruct (set_cell_spec R C g gY (x ob) blank Hrect
                ltac:(subst gY; lia) ltac:(lia)) as (g' & Hs & Hr' & Hc').
    exists g'. split; [exact Hs | split; [exact Hr' |]].
    intros r c Hr Hc. rewrite Hc', Hh. cbn [String.eqb Ascii.eqb andb].
    rewrite !andb_true_r, !andb_false_r.
    rewrite (Z.eqb_sym c (x ob)). reflexivity.
  - destruct (String.eqb (typ ob) "rock") eqn:Hrk.
    + destruct (Z.leb_spec 0 (gY - 1)) as [Hrow | Hrow].
      * destruct (set_cell_spec R C g (gY - 1) (x ob) rockChar Hrect
                    ltac:(subst gY; lia) ltac:(lia)) as (g' & Hs & Hr' & Hc').
        exists g'. split; [exact Hs | split; [exact Hr' |]].
        intros r c Hr Hc. rewrite Hc'.
        rewrite !andb_true_r, !andb_false_r.
        rewrite (Z.eqb_sym c (x ob)). reflexivity.
      * exists g. repeat split; try apply Hrect. intros r c Hr Hc.
        destruct (Z.eqb_spec r (gY - 1)); [lia |].
        now rewrite !andb_false_r.
    + exists g. repeat split; try apply Hrect. intros r c Hr Hc.
      now rewrite !andb_false_r.
Qed.

Lemma draw_obstacles_spec R C obs : forall g,
  rect R C g -> 1 <= Z.of_nat R <= GoInt.max_int ->
  let gY := Z.of_nat R - 1 in
  exists g',
    draw_obstacles (Z.of_nat C) gY obs g = Some g'
    /\ rect R C g'
    /\ forall r c,
         0 <= r < Z.of_nat R -> 0 <= c < Z.of_nat C ->
         cell g' r c
         = if (r =? gY) && kind_at "hole" c obs then Some blank
           else if (r =? gY - 1) && kind_at "rock" c obs then Some rockChar
                else cell g r c.
Proof.
  induction obs as [| ob rest IH]; intros g Hrect HR gY.
  - exists g. cbn. repeat split; try apply Hrect. intros r c _ _.
    now rewrite !andb_false_r.
  - cbn [draw_obstacles].
    destruct (draw_obstacle_spec R C ob g Hrect HR) as (g1 & Hs & Hr1 & Hc1).
    fold gY in Hs, Hc1. rewrite Hs.
    destruct (IH g1 Hr1 HR) as (g' & Hs' & Hr' & Hc').
    fold gY in Hs', Hc'.
    exists g'. split; [exact Hs' | split; [exact Hr' |]].
    intros r c Hr Hc. rewrite (Hc' r c Hr Hc), (Hc1 r c Hr Hc).
    unfold kind_at. cbn [existsb].
    destruct (Z.eqb_spec r gY) as [E1 | N1];
      destruct (Z.eqb_spec r (gY - 1)) as [E2 | N2]; try lia; cbn [andb].
    + destruct (existsb _ rest); [now rewrite orb_true_r |].
      now rewrite orb_false_r.
    + destruct (existsb (fun ob0 => (x ob0 =? c) && (typ ob0 =? "rock")%string)
                  rest); [now rewrite orb_true_r |].
      now rewrite orb_false_r.
    + reflexivity.
Qed.

Lemma draw_player_spec R C m g :
  rect R C g -> gameRows m = Z.of_nat R -> gameCols m = Z.of_nat C ->
  exists g',
    draw_player m g = Some g'
    /\ rect R C g'
    /\ forall r c,
         0 <= r < Z.of_nat R -> 0 <= c < Z.of_nat C ->
         cell g' r c
         = if (r =? playerY m) && (c =? 2) then Some playerChar
           else cell g r c.
Proof.
  intros Hrect HR HC. unfold draw_player. rewrite HR, HC.
  destruct (Z.leb_spec 0 (playerY m)) as [Hy0 | Hy0]; cbn [andb].
  2:{ exists g. repeat split; try apply Hrect. intros r c Hr Hc.
      destruct (Z.eqb_spec r (playerY m)); [lia | reflexivity]. }
  destruct (Z.ltb_spec (playerY m) (Z.of_nat R)) as [Hy1 | Hy1]; cbn [andb].
  2:{ exists g. repeat split; try apply Hrect. intros r c Hr Hc.
      destruct (Z.eqb_spec r (playerY m)); [lia | reflexivity]. }
  destruct (Z.ltb_spec 2 (Z.of_nat C)) as [Hx | Hx].
  2:{ exists g. repeat split; try apply Hrect. intros r c Hr Hc.
      destruct (Z.eqb_spec c 2); [lia | now rewrite andb_false_r]. }
  destruct (set_cell_spec R C g (playerY m) 2 playerChar Hrect
              ltac:(lia) ltac:(lia)) as (g' & Hs & Hr' & Hc').
  exists g'. split; [exact Hs | split; [exact Hr' |]].
  intros r c _ _. apply Hc'.
Qed.

Lemma renderGame_grid (m : model) :
  1 <= gameRows m <= GoInt.max_int ->
  1 <= gameCols m <= GoInt.max_int ->
  exists g,
    renderGrid m = Some g
    /\ renderGame m
       = Some (String.concat newline (map (String.concat "") g))
    /\ Z.of_nat (List.length g) = gameRows m
    /\ Forall (fun row => Z.of_nat (List.length row) = gameCols m) g
    /\ forall r c,
         0 <= r < gameRows m -> 0 <= c < gameCols m ->
         cell g r c = Some (shown m r c).
Proof.
  intros HR HC.
  set (R := Z.to_nat (gameRows m)). set (C := Z.to_nat (gameCols m)).
  assert (HRz : gameRows m = Z.of_nat R) by (subst R; lia).
  assert (HCz : gameCols m = Z.of_nat C) by (subst C; lia).
  unfold renderGame, renderGrid.
  destruct (Z.ltb_spec (gameRows m) 0); [lia |].
  destruct (Z.ltb_spec (gameCols m) 0); [lia |].
  destruct (Z.eqb_spec (gameRows m) 0); [lia |].
  destruct (Z.eqb_spec (gameCols m) 0); [lia |].
  cbn [orb]. fold R C.
  assert (HgY : GoInt.sub (gameRows m) 1 = Z.of_nat R - 1).
  { rewrite <- HRz. apply sub_exact.
    unfold GoInt.in_range, GoInt.min_int, GoInt.max_int in *. lia. }
  rewrite HgY, HCz.
  destruct (ground_loop_spec R C (Z.of_nat R - 1) C 0
              (repeat (repeat blank C) R) (rect_blank R C)
              ltac:(lia) ltac:(lia) ltac:(lia) ltac:(lia))
    as (g1 & Hs1 & Hr1 & Hc1).
  rewrite Hs1.
  destruct (draw_obstacles_spec R C (obstacles m) g1 Hr1 ltac:(lia))
    as (g2 & Hs2 & Hr2 & Hc2).
  cbv zeta in Hs2, Hc2. rewrite Hs2.
  destruct (draw_player_spec R C m g2 Hr2 HRz HCz) as (g3 & Hs3 & Hr3 & Hc3).
  rewrite Hs3. exists g3.
  split; [reflexivity | split; [reflexivity |]].
  destruct Hr3 as [Hlen Hall].
  split; [lia | split].
  - eapply Forall_impl; [| exact Hall]. intros row Hrow. cbv beta in *. lia.
  - intros r c Hr Hc. rewrite HRz in Hr.
    assert (Hc' : 0 <= c < Z.of_nat C) by lia.
    rewrite (Hc3 r c Hr Hc'), (Hc2 r c Hr Hc'), Hc1.
    rewrite (cell_blank R C r c Hr Hc'). unfold shown. rewrite HRz.
    destruct ((r =? playerY m) && (c =? 2)); [reflexivity |].
    destruct (Z.eqb_spec r (Z.of_nat R - 1)) as [E1 | N1]; cbn [andb].
    + destruct (kind_at "hole" c (obstacles m)); [reflexivity |].
      destruct (Z.eqb_spec r (Z.of_nat R - 1 - 1)); [lia |]. cbn [andb].
      destruct (Z.leb_spec 0 c); destruct (Z.ltb_spec c (Z.of_nat C));
        try lia. reflexivity.
    + replace (Z.of_nat R - 1 - 1) with (Z.of_nat R - 2) by lia.
      destruct (Z.eqb_spec r (Z.of_nat R - 2)); cbn [andb].
      * destruct (kind_at "rock" c (obstacles m)); reflexivity.
      * reflexivity.
Qed.

(** X12. On a grid of at least one row and one column (every sized grid
    of a reachable state), [renderGame] never indexes out of range, builds
    [gameRows] rows of [gameCols] cells, and each cell shows: the player
    at row [playerY], column 2; on the bottom row the ground, blanked where
    a hole stands; in the row above it a rock where a rock stands; and a
    blank anywhere else.  Obstacles off the grid are not drawn. *)
Theorem renderGame_shows (m : model) :
  1 <= gameRows m <= GoInt.max_int ->
  1 <= gameCols m <= GoInt.max_int ->
  exists g,
    renderGrid m = Some g
    /\ renderGame m
       = Some (String.concat newline (map (String.concat "") g))
    /\ Z.of_nat (List.length g) = gameRows m
    /\ Forall (fun row => Z.of_nat (List.length row) = gameCols m) g
    /\ forall r c,
         0 <= r < gameRows m -> 0 <= c < gameCols m ->
         cell g r c = Some (shown m r c).
Proof. apply renderGame_grid. Qed.

Lemma renderGame_shows_witness :
  exists g,
    renderGrid Scenario.hole_ahead = Some g
    /\ cell g 8 2 = Some playerChar
    /\ cell g 9 3 = Some blank
    /\ cell g 9 4 = Some groundChar
    /\ cell g 8 12 = Some rockChar.
Proof.
  destruct (renderGame_shows Scenario.hole_ahead) as (g & Hg & _ & _ & _ & H).
  - split; discriminate.
  - split; discriminate.
  - exists g. split; [exact Hg |].
    repeat split; (refine (eq_trans (H _ _ _ _) _);
                   [split; [lia | reflexivity] | split; [lia | reflexivity]
                   | vm_compute; reflexivity]).
Defined.

(** X13. [renderGame] never panics in a reachable state: it always yields
    a string, the empty one as long as the grid is not sized. *)
Theorem renderGame_never_panics (m : model) :
  reachable m ->
  (exists s, renderGame m = Some s)
  /\ (gameRows m = 0 -> renderGame m = Some EmptyString).
Proof.
  intros Hr. destruct (safe_inv m (reachable_Safe m Hr)) as [_ Hg _].
  split.
  - destruct Hg as [(H0 & _) | (Hrows & Hcols)].
    + exists EmptyString. unfold renderGame. now rewrite H0.
    + destruct (renderGame_grid m) as (g & _ & Hs & _).
      * lia.
      * unfold GoInt.max_int. lia.
      * eexists. exact Hs.
  - intros H0. unfold renderGame. now rewrite H0.
Qed.

Lemma renderGame_never_panics_witness :
  renderGame (fst (initialModel Scenario.quiet)) = Some EmptyString.
Proof.
  apply (renderGame_never_panics (fst (initialModel Scenario.quiet))).
  - constructor.
  - reflexivity.
Defined.

(** X14. [pad] brings a string to exactly [n] runes for every [n >= 0]:
    the runes of [s] come first, cut after the [n]-th, and spaces fill
    what is left; padding the result again changes nothing.  A negative
    [n] makes [pad] panic. *)
Theorem pad_exact_width (s : list rune) (n : Z) :
  (n < 0 -> pad s n = None)
  /\ (0 <= n ->
      exists out,
        pad s n = Some out
        /\ Z.of_nat (List.length out) = n
        /\ (forall i, (i < List.length s)%nat -> Z.of_nat i < n ->
              nth_error out i = nth_error s i)
        /\ (forall i, (List.length s <= i)%nat -> Z.of_nat i < n ->
              nth_error out i = Some space_rune)
        /\ pad out n = Some out).
Proof.
  split.
  - intros Hn. unfold pad.
    destruct (Z.leb_spec n (Z.of_nat (List.length s))); [| lia].
    destruct (Z.ltb_spec n 0); [reflexivity | lia].
  - intros Hn.
    assert (Hagain : forall out,
              Z.of_nat (List.length out) = n -> pad out n = Some out).
    { intros out Hlen. unfold pad.
      destruct (Z.leb_spec n (Z.of_nat (List.length out))); [| lia].
      destruct (Z.ltb_spec n 0); [lia |].
      f_equal. apply firstn_all2. lia. }
    unfold pad at 1.
    destruct (Z.leb_spec n (Z.of_nat (List.length s))) as [Hle | Hgt].
    + destruct (Z.ltb_spec n 0); [lia |].
      exists (firstn (Z.to_nat n) s).
      assert (Hlen : Z.of_nat (List.length (firstn (Z.to_nat n) s)) = n)
        by (rewrite length_firstn; lia).
      split; [reflexivity | split; [exact Hlen | split; [| split]]].
      * intros i Hi Hin. rewrite nth_error_firstn.
        destruct (Nat.ltb_spec i (Z.to_nat n)); [reflexivity | lia].
      * intros i Hi Hin. lia.
      * apply Hagain. exact Hlen.
    + set (k := Z.to_nat (n - Z.of_nat (List.length s))).
      exists (s ++ repeat space_rune k).
      assert (Hlen : Z.of_nat (List.length (s ++ repeat space_rune k)) = n)
        by (rewrite length_app, repeat_length; subst k; lia).
      split; [reflexivity | split; [exact Hlen | split; [| split]]].
      * intros i Hi Hin. now apply nth_error_app1.
      * intros i Hi Hin. rewrite nth_error_app2 by exact Hi.
        apply nth_error_repeat. subst k. lia.
      * apply Hagain. exact Hlen.
Qed.

Lemma pad_exact_width_witness :
  pad [68; 105; 115; 116] 6 = Some [68; 105; 115; 116; 32; 32]
  /\ pad [68; 105; 115; 116] (-1) = None.
Proof.
  destruct (pad_exact_width [68; 105; 115; 116] (-1)) as (Hneg & _).
  split; [vm_compute; reflexivity | apply Hneg; lia].
Defined.

(* ------------------------------------------------------------------------ *)
(** ** Further properties: what only a restart can do *)
(* ------------------------------------------------------------------------ *)

(** X15. Only an accepted restart changes the generation, and only an
    accepted restart ends the game-over state: any other message leaves a
    finished game finished, with its distance, obstacles, high score,
    frame interval, velocity and [restartAt] as they were. *)
Theorem only_restart_leaves_game_over (m : model) (msg : Msg) (wl : World) :
  ~ accepted_restart m msg wl ->
  let m' := next m msg wl in
  tickGen m' = tickGen m
  /\ (gameOver m = true ->
      gameOver m' = true /\ dist m' = dist m /\ obstacles m' = obstacles m
      /\ highScore m' = highScore m /\ frameDur m' = frameDur m
      /\ velY m' = velY m /\ restartAt m' = restartAt m).
Proof.
  intros Hno m'. subst m'. destruct msg as [Width Height | key | gen |].
  - cbn. repeat split; assumption.
  - unfold accepted_restart in Hno.
    unfold next, Update, bind, ret, time_Now, now_of in *.
    destruct (is_quit key) eqn:Hq; [cbn; repeat split; assumption |].
    destruct (is_jump key) eqn:Hj; [| cbn; repeat split; assumption].
    destruct (gameOver m) eqn:Hover.
    + destruct (Z.ltb_spec (restartAt m) (clock wl (clock_reads wl))).
      * exfalso. apply Hno. exists key. repeat split; assumption.
      * cbn. repeat split; assumption.
    + destruct (playerY m =? restY m); cbn; split;
        try reflexivity; discriminate.
  - destruct (Z.eq_dec gen (tickGen m)) as [-> | Hne].
    + destruct (accepted_tick_cmd m wl) as (d & _ & Ht & _).
      split; [exact Ht |]. intros Hover.
      unfold next, Update. rewrite Z.eqb_refl, Hover. cbn.
      repeat split; assumption.
    + unfold next, Update.
      destruct (Z.eqb_spec gen (tickGen m)); [contradiction |]. cbn.
      repeat split; assumption.
  - cbn. repeat split; assumption.
Qed.

Lemma only_restart_leaves_game_over_witness :
  gameOver (next Scenario.finished (KeyMsg " ") Scenario.quiet) = true
  /\ dist (next Scenario.finished (WindowSizeMsg 80 24) Scenario.quiet) = 120.
Proof.
  split.
  - refine (proj1 (proj2 (only_restart_leaves_game_over Scenario.finished
                            (KeyMsg " ") Scenario.quiet _) eq_refl)).
    intros (key & _ & _ & _ & _ & Hlt). vm_compute in Hlt. discriminate.
  - refine (proj1 (proj2 (proj2 (only_restart_leaves_game_over
                                   Scenario.finished (WindowSizeMsg 80 24)
                                   Scenario.quiet _) eq_refl))).
    intros (key & H & _). discriminate.
Defined.

(* ------------------------------------------------------------------------ *)
(** ** Further properties: a jump clears what it flies over *)
(* ------------------------------------------------------------------------ *)

Lemma run_ticks_snoc n : forall m wl,
  run_ticks (S n) m wl
  = (let m1 := fst (run_ticks n m wl) in
     let wl1 := snd (run_ticks n m wl) in
     (next m1 (tickMsg (tickGen m1)) wl1,
      world_of m1 (tickMsg (tickGen m1)) wl1)).
Proof.
  induction n as [| n IH]; intros m wl.
  - cbn [run_ticks]. unfold bind, ret. cbn [fst snd]. unfold next, world_of.
    destruct (Update m (tickMsg (tickGen m)) wl) as [r wl1]. reflexivity.
  - change (run_ticks (S (S n)) m wl)
      with (bind (Update m (tickMsg (tickGen m)))
              (fun r => run_ticks (S n) (fst r)) wl).
    change (run_ticks (S n) m wl)
      with (bind (Update m (tickMsg (tickGen m)))
              (fun r => run_ticks n (fst r)) wl).
    unfold bind. destruct (Update m (tickMsg (tickGen m)) wl) as [r wl1].
    apply IH.
Qed.

(** A tick on which the player ends up in the air cannot end the run. *)
Lemma airborne_tick_survives m wl :
  playing m ->
  playerY (next m (tickMsg (tickGen m)) wl)
  < restY (next m (tickMsg (tickGen m)) wl) ->
  gameOver (next m (tickMsg (tickGen m)) wl) = false.
Proof.
  intros Hplay Hair. unfold next in *.
  rewrite (accepted_tick_steps m wl Hplay) in *.
  destruct (step_spec m wl)
    as (extra & _ & _ & _ & _ & Hle & _ & _ & _ & _ & _ & Hover & _).
  rewrite Hover, (proj1 Hplay). cbn [orb].
  apply not_true_is_false. intros Hex. apply existsb_exists in Hex.
  destruct Hex as (ob & _ & Hhit).
  apply (hits_iff _ ob Hle) in Hhit. lia.
Qed.

Lemma jump_survives n : forall m key wl0 wl,
  reachable m -> playing m -> playerY m = restY m ->
  key = " "%string \/ key = "w"%string ->
  (n <= 6)%nat ->
  forall j, (j <= n)%nat ->
    gameOver (fst (run_ticks j (next m (KeyMsg key) wl0) wl)) = false.
Proof.
  induction n as [| n IH]; intros m key wl0 wl Hr Hplay Hrest Hkey Hn j Hj.
  - assert (j = 0%nat) as -> by lia. cbn.
    destruct (jump_key_cases key Hkey) as [Hq Hjk].
    unfold next, Update. rewrite Hq, Hjk, (proj1 Hplay).
    destruct (playerY m =? restY m); cbn; exact (proj1 Hplay).
  - destruct (Nat.eq_dec j (S n)) as [-> | Hne];
      [| apply (IH m key wl0 wl); try assumption; lia].
    set (m0 := next m (KeyMsg key) wl0).
    assert (Hbefore : forall i, (i < S n)%nat ->
              gameOver (fst (run_ticks i m0 wl)) = false).
    { intros i Hi. apply (IH m key wl0 wl); try assumption; lia. }
    pose proof (jump_takes_seven_steps m key wl0 wl (S n) Hr Hplay Hrest Hkey
                  ltac:(lia) Hbefore) as (_ & Hair & _).
    specialize (Hair ltac:(lia)).
    rewrite run_ticks_snoc in Hair |- *. cbv zeta in Hair |- *.
    cbn [fst] in Hair |- *.
    apply airborne_tick_survives; [| exact Hair].
    destruct Hplay as (Hover & Hrows & Hcols).
    assert (Hm0 : gameRows m0 = gameRows m /\ gameCols m0 = gameCols m).
    { subst m0. destruct (jump_key_cases key Hkey) as [Hq Hjk].
      unfold next, Update. rewrite Hq, Hjk, Hover.
      destruct (playerY m =? restY m); split; reflexivity. }
    destruct (run_ticks_trace n m0 wl ltac:(lia) ltac:(lia)
                (fun i Hi => Hbefore i ltac:(lia)))
      as (_ & _ & _ & _ & Hrr & Hcc).
    repeat split; [apply Hbefore; lia | lia | lia].
Qed.

(** X16. A jump from the ground is safe for six ticks: in a reachable
    running state with the player at rest height, after the jump key the
    run cannot end on any of the next six ticks, whatever obstacles come;
    so an obstacle 1 to 6 cells ahead of the player's column (position 3
    to 8) arrives in that column while the run goes on -- it is jumped
    over. *)
Theorem jump_clears_six_ticks (m : model) (key : string) (wl0 wl : World) :
  reachable m -> playing m -> playerY m = restY m ->
  key = " "%string \/ key = "w"%string ->
  let m0 := next m (KeyMsg key) wl0 in
  (forall n, (n <= 6)%nat -> gameOver (fst (run_ticks n m0 wl)) = false)
  /\ (forall p t,
        In (mkObstacle p t) (obstacles m) -> 3 <= p <= 8 ->
        let m' := fst (run_ticks (Z.to_nat (p - 2)) m0 wl) in
        In (mkObstacle 2 t) (obstacles m') /\ gameOver m' = false).
Proof.
  intros Hr Hplay Hrest Hkey m0.
  assert (Hsafe : forall n, (n <= 6)%nat ->
            gameOver (fst (run_ticks n m0 wl)) = false).
  { intros n Hn. apply (jump_survives 6 m key wl0 wl); try assumption; lia. }
  split; [exact Hsafe |].
  intros p t Hin Hp m'. subst m'.
  split; [| apply Hsafe; lia].
  destruct Hplay as (Hover & Hrows & Hcols).
  assert (Hm0 : gameRows m0 = gameRows m /\ gameCols m0 = gameCols m
                /\ obstacles m0 = obstacles m).
  { subst m0. destruct (jump_key_cases key Hkey) as [Hq Hjk].
    unfold next, Update. rewrite Hq, Hjk, Hover.
    destruct (playerY m =? restY m); repeat split; reflexivity. }
  destruct Hm0 as (Hr0 & Hc0 & Ho0).
  pose proof (Inv_Update m (KeyMsg key) wl0 (safe_inv m (reachable_Safe m Hr)))
    as HI0. fold m0 in HI0.
  pose proof (obstacle_after_ticks (Z.to_nat (p - 2)) m0 wl p t HI0
                ltac:(lia) ltac:(lia) ltac:(rewrite Ho0; exact Hin)
                ltac:(lia) (fun j Hj => Hsafe j ltac:(lia))) as H.
  replace (p - Z.of_nat (Z.to_nat (p - 2))) with 2 in H by lia. exact H.
Qed.

Lemma reachable_rock_in_six : reachable Scenario.rock_in_six.
Proof.
  assert (E : Scenario.rock_in_six
              = fst (deliver (repeat (tickMsg 0) 5) Scenario.after_opening
                       Scenario.quiet)) by (vm_compute; reflexivity).
  rewrite E. apply reachable_deliver;
    [apply sane_ticks | exact reachable_after_opening].
Qed.

Lemma jump_clears_six_ticks_witness :
  gameOver (fst (run_ticks 6
                   (next Scenario.rock_in_six (KeyMsg " ") Scenario.quiet)
                   Scenario.quiet)) = false
  /\ gameOver (fst (run_ticks 6 Scenario.rock_in_six Scenario.quiet)) = true.
Proof.
  split; [| vm_compute; reflexivity].
  refine (proj1 (jump_clears_six_ticks Scenario.rock_in_six " "
                   Scenario.quiet Scenario.quiet reachable_rock_in_six
                   _ _ _) 6%nat _).
  - repeat split; vm_compute; discriminate.
  - vm_compute. reflexivity.
  - left. reflexivity.
  - lia.
Defined.

(* ------------------------------------------------------------------------ *)
(** ** Further properties: how high and how long the player flies *)
(* ------------------------------------------------------------------------ *)

Lemma peak_spec v :
  -4 <= v <= 2 ->
  0 <= peak v <= 6
  /\ (v <= 1 -> peak (v + 1) = peak v - (v + 1))
  /\ (v = 2 -> peak v = 3).
Proof.
  intros Hv.
  assert (C : v = -4 \/ v = -3 \/ v = -2 \/ v = -1 \/ v = 0 \/ v = 1 \/ v = 2)
    by lia.
  assert (E : peak (-4) = 0 /\ peak (-3) = 3 /\ peak (-2) = 5
              /\ peak (-1) = 6 /\ peak 0 = 6 /\ peak 1 = 5 /\ peak 2 = 3
              /\ peak 3 = 0) by (vm_compute; repeat split).
  destruct E as (E4 & E3 & E2 & E1 & E0 & F1 & F2 & F3).
  repeat (destruct C as [C | C];
          [subst; cbn [Z.add Z.pos_sub Pos.add Pos.succ Z.succ_double
                         Z.pred_double Z.double Pos.pred_double];
           rewrite ?E4, ?E3, ?E2, ?E1, ?E0, ?F1, ?F2, ?F3;
           split; [lia | split; intros; lia] |]).
  subst; cbn [Z.add]; rewrite ?E4, ?E3, ?E2, ?E1, ?E0, ?F1, ?F2, ?F3;
    split; [lia | split; intros; lia].
Qed.

Lemma tick_arc m wl :
  playing m ->
  let m' := next m (tickMsg (tickGen m)) wl in
  (playerY m', velY m') = arc (restY m) (playerY m, velY m)
  /\ gameRows m' = gameRows m.
Proof.
  intros Hplay. cbv zeta. unfold next.
  rewrite (accepted_tick_steps m wl Hplay).
  destruct (step_spec m wl) as (extra & _ & _ & Hy & Hv & _ & Hr & _).
  rewrite Hy, Hv, physics_arc. split; [reflexivity | exact Hr].
Qed.

Lemma flight_arc R y v :
  3 <= R <= GoInt.max_int - 10 ->
  -4 <= v <= 2 -> 0 <= R - y <= peak v ->
  let yv := arc R (y, v) in
  -4 <= snd yv <= 2 /\ 0 <= R - fst yv <= peak (snd yv)
  /\ (yv = (R, 0) \/ (yv = (y + (v + 1), v + 1) /\ v <= 1)).
Proof.
  intros HR Hv Hh. cbv zeta. unfold GoInt.max_int in HR.
  destruct (peak_spec v Hv) as (Hp & Hnext & Hlast).
  rewrite arc_exact
    by (unfold GoInt.in_range, GoInt.min_int, GoInt.max_int; lia).
  destruct (Z.leb_spec R (y + (v + 1))) as [Hland | Hfly]; cbn [fst snd].
  - destruct (peak_spec 0 ltac:(lia)) as (Hp0 & _).
    split; [lia | split; [lia | left; reflexivity]].
  - assert (Hv1 : v <= 1).
    { destruct (Z.eq_dec v 2) as [E | NE]; [| lia].
      specialize (Hlast E). lia. }
    specialize (Hnext Hv1).
    split; [lia | split; [lia | right; split; [reflexivity | exact Hv1]]].
Qed.

Lemma flight_initial wl : in_flight (fst (initialModel wl)).
Proof.
  unfold initialModel, bind, ret. destruct (loadHighScore wl) as [hs wl'].
  left. repeat split.
Qed.

Lemma flight_rest m :
  Safe m -> gameRows m <> 0 -> gameRows m <= GoInt.max_int - 8 ->
  restY m = gameRows m - 2 /\ 3 <= restY m <= GoInt.max_int - 10.
Proof.
  intros HS Hr Hmax. destruct (safe_inv m HS) as [_ Hg _].
  destruct Hg as [(H0 & _) | (Hrr & _)]; [contradiction |].
  unfold restY. rewrite sub_exact;
    unfold GoInt.in_range, GoInt.min_int, GoInt.max_int in *; lia.
Qed.

Lemma flight_Update m msg wl :
  Safe m -> sane msg -> in_flight m -> in_flight (next m msg wl).
Proof.
  intros HS Hsane Hfl.
  assert (Hv : -4 <= velY m <= 2)
    by (destruct Hfl as [(_ & _ & -> & _) | (_ & _ & Hv & _)]; lia).
  destruct msg as [Width Height | key | gen |].
  - destruct (safe_inv _ (Safe_resize m Width Height wl HS)) as [_ Hg _].
    destruct Hsane as [_ HH]. unfold next, Update, ret in *.
    cbn [fst] in *. unfold recalcSizes in *.
    cbn [h w gameRows gameCols obstacles playerY velY] in *.
    change (2 * 3) with 6 in *.
    set (rows := GoInt.sub (GoInt.sub (GoInt.sub Height 1) 1) 6) in *.
    assert (Hrows : rows = Height - 8).
    { subst rows. unfold GoInt.max_int in HH.
      rewrite (sub_exact Height 1)
        by (unfold GoInt.in_range, GoInt.min_int, GoInt.max_int; lia).
      rewrite (sub_exact (Height - 1) 1)
        by (unfold GoInt.in_range, GoInt.min_int, GoInt.max_int; lia).
      rewrite sub_exact
        by (unfold GoInt.in_range, GoInt.min_int, GoInt.max_int; lia).
      lia. }
    destruct Hg as [(H0 & _) | (Hrr & _)].
    + exfalso. destruct (Z.ltb_spec rows 5); lia.
    + right. destruct (peak_spec (velY m) Hv) as (Hp & _).
      unfold restY. cbn [gameRows playerY velY].
      destruct (Z.ltb_spec rows 5);
        (split; [lia |]; split; [unfold GoInt.max_int in *; lia |];
         split; [exact Hv | lia]).
  - unfold next, Update, bind, ret, time_Now.
    destruct (is_quit key); [exact Hfl |].
    destruct (is_jump key); [| exact Hfl].
    destruct (gameOver m) eqn:Hover.
    + destruct (restartAt m <? _); [| exact Hfl]. cbn [fst restart].
      destruct Hfl as [(_ & _ & _ & Hno) | (Hr & Hmax & _ & _)];
        [congruence |].
      right. cbn [gameRows velY playerY]. split; [exact Hr |].
      split; [exact Hmax |]. unfold restY. cbn [gameRows].
      destruct (peak_spec 0 ltac:(lia)) as (Hp & _). lia.
    + destruct (Z.eqb_spec (playerY m) (restY m)) as [E | NE]; [| exact Hfl].
      destruct Hfl as [(H0 & Hy & _ & _) | (Hr & Hmax & _ & _)].
      * exfalso. unfold restY in E. rewrite H0, Hy in E. vm_compute in E.
        discriminate.
      * right. cbn [fst set_velY set_motion gameRows velY playerY].
        split; [exact Hr |]. split; [exact Hmax |].
        unfold restY in *. cbn [gameRows].
        unfold jumpVel. change (peak (-4)) with 0.
        change (gameRows (set_velY m (-4))) with (gameRows m). split; lia.
  - unfold next, Update, ret.
    destruct (Z.eqb_spec gen (tickGen m)) as [-> | _]; cbn [negb];
      [| exact Hfl].
    destruct (gameOver m) eqn:Hover; [exact Hfl |].
    destruct (Z.eqb_spec (gameRows m) 0) as [| Hr]; [exact Hfl |].
    destruct (Z.eqb_spec (gameCols m) 0) as [| Hc]; [exact Hfl |].
    cbn [orb].
    assert (Hplay : playing m) by (repeat split; assumption).
    destruct (tick_arc m wl Hplay) as [Hyv Hrows]. unfold next in Hyv, Hrows.
    rewrite (accepted_tick_steps m wl Hplay) in Hyv, Hrows.
    destruct Hfl as [(H0 & _) | (_ & Hmax & _ & Hh)]; [contradiction |].
    destruct (flight_rest m HS Hr Hmax) as [_ HR].
    destruct (flight_arc (restY m) (playerY m) (velY m) HR Hv Hh)
      as (Hv' & Hh' & _).
    rewrite <- Hyv in Hv', Hh'. cbn [fst snd] in Hv', Hh'.
    right. split; [congruence |]. split; [congruence |].
    split; [exact Hv' |].
    assert (HR' : restY (fst (fst (step m wl))) = restY m)
      by (unfold restY; congruence).
    rewrite HR'. exact Hh'.
  - exact Hfl.
Qed.

Lemma reachable_flight m : reachable m -> in_flight m.
Proof.
  induction 1 as [wl | m msg wl Hr IH Hs]; [apply flight_initial |].
  apply flight_Update; [apply reachable_Safe; exact Hr | exact Hs | exact IH].
Qed.

(** X17. In every reachable state with a sized grid the player is between
    six rows above the rest height and the rest height itself, and the
    vertical velocity is between the jump impulse -4 and 2. *)
Theorem player_height_bounds (m : model) :
  reachable m -> gameRows m <> 0 ->
  gameRows m - 8 <= playerY m <= gameRows m - 2
  /\ -4 <= velY m <= 2.
Proof.
  intros Hr Hrows. pose proof (reachable_flight m Hr) as Hfl.
  destruct Hfl as [(H0 & _) | (_ & Hmax & Hv & Hh)]; [contradiction |].
  destruct (flight_rest m (reachable_Safe m Hr) Hrows Hmax) as [HR _].
  destruct (peak_spec (velY m) Hv) as (Hp & _). lia.
Qed.

Lemma player_height_bounds_witness :
  gameRows Scenario.airborne - 8 <= playerY Scenario.airborne
  /\ velY Scenario.airborne <= 2.
Proof.
  assert (Hr : reachable Scenario.airborne).
  { rewrite <- airborne_reachable. apply reachable_deliver; [| constructor].
    repeat constructor; discriminate. }
  destruct (player_height_bounds Scenario.airborne Hr) as ((H1 & _) & _ & H2).
  - discriminate.
  - split; assumption.
Defined.

Lemma arc_rest_fixed R n :
  3 <= R <= GoInt.max_int - 10 -> Nat.iter n (arc R) (R, 0) = (R, 0).
Proof.
  intros HR. induction n as [| n IH]; [reflexivity |].
  rewrite Nat.iter_succ, IH. unfold GoInt.max_int in HR.
  rewrite arc_exact
    by (unfold GoInt.in_range, GoInt.min_int, GoInt.max_int; lia).
  destruct (Z.leb_spec R (R + (0 + 1))); [reflexivity | lia].
Qed.

(** Left alone, the player is on the ground within [3 - v] ticks. *)
Lemma arc_lands R n : forall y v,
  3 <= R <= GoInt.max_int - 10 ->
  -4 <= v <= 2 -> 0 <= R - y <= peak v ->
  3 - v <= Z.of_nat n ->
  Nat.iter n (arc R) (y, v) = (R, 0).
Proof.
  induction n as [| n IH]; intros y v HR Hv Hh Hn; [lia |].
  rewrite Nat.iter_succ, <- Nat.iter_swap.
  destruct (flight_arc R y v HR Hv Hh) as (Hv' & Hh' & Hcase).
  destruct Hcase as [E | (E & Hv1)]; rewrite E in *; cbn [fst snd] in *.
  - apply arc_rest_fixed. exact HR.
  - apply IH; try assumption. lia.
Qed.

(** X18. Without a jump key the player comes down and stays down: from any
    reachable running state, after seven or more accepted ticks the player
    is at the rest height with velocity 0, as long as the run lasts. *)
Theorem player_lands_and_stays (m : model) (wl : World) (n : nat) :
  reachable m -> playing m -> (7 <= n)%nat ->
  (forall j, (j < n)%nat -> gameOver (fst (run_ticks j m wl)) = false) ->
  let m' := fst (run_ticks n m wl) in
  playerY m' = gameRows m - 2 /\ velY m' = 0 /\ gameRows m' = gameRows m.
Proof.
  intros Hr (Hover & Hrows & Hcols) Hn Hrun m'. subst m'.
  destruct (run_ticks_trace n m wl Hrows Hcols Hrun)
    as (Hyv & _ & _ & _ & Hrr & _).
  destruct (reachable_flight m Hr) as [(H0 & _) | (_ & Hmax & Hv & Hh)];
    [contradiction |].
  destruct (flight_rest m (reachable_Safe m Hr) Hrows Hmax) as [HR HRr].
  rewrite (arc_lands (restY m) n (playerY m) (velY m) HRr Hv Hh ltac:(lia))
    in Hyv.
  injection Hyv as Hy Hvel. rewrite Hy, Hvel, HR. repeat split. exact Hrr.
Qed.

Lemma player_lands_and_stays_witness :
  playerY (fst (run_ticks 7 Scenario.airborne Scenario.quiet)) = 10 - 2.
Proof.
  refine (proj1 (player_lands_and_stays Scenario.airborne Scenario.quiet 7
                   _ _ _ _)).
  - rewrite <- airborne_reachable. apply reachable_deliver; [| constructor].
    repeat constructor; discriminate.
  - repeat split; discriminate.
  - lia.
  - intros j Hj. do 7 (destruct j as [| j]; [vm_compute; reflexivity |]). lia.
Defined.

Lemma commands_classified_witness :
  cmd_of Scenario.finished (KeyMsg "q") Scenario.quiet = Some Quit
  /\ cmd_of Scenario.finished (KeyMsg "x") Scenario.quiet = None.
Proof.
  destruct (commands_classified Scenario.finished (KeyMsg "q") Scenario.quiet)
    as ((_ & Hq) & _).
  split; [| reflexivity].
  apply Hq. exists "q"%string. split; reflexivity.
Defined.
